(** * A restock monitor: the poll loop of [monitor.py] and its collaborators

    The program polls product pages, reads a stock quantity off each page, and
    posts or edits a chat message when a target comes into or goes out of
    stock.  This file embeds its functions in Rocq and states what they do.

    Python values are modelled as follows.
    - A [str] is a list of Unicode code points.
    - An [int] is a [Z]; [float('inf')] is a constructor of its own.
    - A [dict] used as a table is a [gmap]; [None] is [None].
    - A call into a library (the HTTP client, the chat API, the HTML parser,
      [flock]) is an argument that says how the call ended. *)

From Stdlib Require Import ZArith NArith List Bool Lia String Ascii.
From stdpp Require Import base option list gmap.

Local Open Scope Z_scope.

(** ** Text *)

Abbreviation char := N.
Abbreviation pystr := (list N).

(** Reading a UTF-8 literal of this file as the code points it denotes. *)
Fixpoint utf8 (bs : list N) (need : nat) (acc : N) : pystr :=
  match bs with
  | [] => []
  | b :: bs' =>
      match need with
      | O =>
          if (b <? 128)%N then b :: utf8 bs' 0 0%N
          else if (b <? 224)%N then utf8 bs' 1 (b - 192)%N
          else if (b <? 240)%N then utf8 bs' 2 (b - 224)%N
          else utf8 bs' 3 (b - 240)%N
      | S O => (acc * 64 + (b - 128))%N :: utf8 bs' 0 0%N
      | S n => utf8 bs' n (acc * 64 + (b - 128))%N
      end
  end.

Definition py (s : string) : pystr :=
  utf8 (map N_of_ascii (list_ascii_of_string s)) 0 0%N.

(** The character tables of the interpreter that the regular expression uses:
    [\d] (a decimal digit, with the value [int] gives it), [\s] (white space)
    and the comparison of a pattern character with a text character under
    [re.IGNORECASE].  The laws hold of the Unicode tables: a digit stands for
    a value from 0 to 9, no white space is a digit, and nothing that matches
    the letter i is white space. *)
Record unicode := {
  decimal : char → option Z;
  isspace : char → bool;
  casematch : char → char → bool;
  decimal_range : ∀ c v, decimal c = Some v → 0 ≤ v ≤ 9;
  space_not_decimal : ∀ c, isspace c = true → decimal c = None;
  letter_i_not_space : ∀ c, casematch 105%N c = true → isspace c = false
}.

(** The tables on the ASCII letters and digits and the white space of
    [str.isspace]. *)
Definition basic_decimal (c : char) : option Z :=
  if ((48 <=? c) && (c <=? 57))%N then Some (Z.of_N c - 48) else None.

Definition basic_isspace (c : char) : bool :=
  (((9 <=? c) && (c <=? 13)) || ((28 <=? c) && (c <=? 32))
   || (c =? 133) || (c =? 160) || (c =? 5760)
   || ((8192 <=? c) && (c <=? 8202)) || (c =? 8232) || (c =? 8233)
   || (c =? 8239) || (c =? 8287) || (c =? 12288))%N.

Definition basic_lower (c : char) : char :=
  if ((65 <=? c) && (c <=? 90))%N then (c + 32)%N else c.

Definition basic_casematch (p c : char) : bool :=
  (basic_lower p =? basic_lower c)%N.

Lemma basic_decimal_range c v : basic_decimal c = Some v → 0 ≤ v ≤ 9.
Proof.
  unfold basic_decimal. destruct ((48 <=? c) && (c <=? 57))%N eqn:E; [|done].
  apply andb_prop in E as [E1 E2]. apply N.leb_le in E1, E2.
  intros [= <-]. lia.
Qed.

Lemma basic_space_not_decimal c :
  basic_isspace c = true → basic_decimal c = None.
Proof.
  unfold basic_isspace, basic_decimal. intros H.
  destruct ((48 <=? c) && (c <=? 57))%N eqn:E; [|done].
  apply andb_prop in E as [E1 E2].
  apply N.leb_le in E1, E2.
  repeat (apply orb_prop in H as [H|H]);
    repeat match goal with
      | H : (_ && _)%bool = true |- _ => apply andb_prop in H as [? ?]
      | H : (_ <=? _)%N = true |- _ => apply N.leb_le in H
      | H : (_ =? _)%N = true |- _ => apply N.eqb_eq in H
      end; lia.
Qed.

Lemma basic_letter_i_not_space c :
  basic_casematch 105%N c = true → basic_isspace c = false.
Proof.
  unfold basic_casematch. change (basic_lower 105%N) with 105%N.
  intros H. apply N.eqb_eq in H. unfold basic_lower in H.
  destruct ((65 <=? c) && (c <=? 90))%N eqn:E.
  - assert (c = 73%N) as -> by lia. reflexivity.
  - subst c. reflexivity.
Qed.

Definition basic_tables : unicode :=
  {| decimal := basic_decimal;
     isspace := basic_isspace;
     casematch := basic_casematch;
     decimal_range := basic_decimal_range;
     space_not_decimal := basic_space_not_decimal;
     letter_i_not_space := basic_letter_i_not_space |}.

(** ** Quantities

    What [parse_stock] returns when it does not fail: an [int], or
    [float('inf')] for a page that names no count and is not marked out of
    stock. *)
Inductive quantity :=
  | QInt (n : Z)
  | QInf.

(** [stock_quantity > 0] *)
Definition gt0 (q : quantity) : bool :=
  match q with
  | QInt n => 0 <? n
  | QInf => true
  end.

(** [stock_quantity == 0] *)
Definition eq0 (q : quantity) : bool :=
  match q with
  | QInt n => n =? 0
  | QInf => false
  end.

(** The longest prefix whose characters satisfy [p], and the rest. *)
Fixpoint span (p : char → bool) (s : pystr) : pystr * pystr :=
  match s with
  | [] => ([], [])
  | c :: s' =>
      if p c then let '(a, b) := span p s' in (c :: a, b) else ([], s)
  end.

(** [s.startswith(p)] *)
Fixpoint startswith (p s : pystr) : bool :=
  match p, s with
  | [], _ => true
  | _ :: _, [] => false
  | a :: p', b :: s' => (a =? b)%N && startswith p' s'
  end.

(** [sub in s] *)
Fixpoint contains (sub s : pystr) : bool :=
  startswith sub s ||
  match s with
  | [] => false
  | _ :: s' => contains sub s'
  end.

(** A value of the configuration where the program needs a string: a
    string, or anything else that JSON allows ([null], a number, ...). *)
Inductive jvalue :=
  | JStr (s : pystr)
  | JOther.

(** [sys.get_int_max_str_digits()]; the program leaves the default. *)
Definition max_str_digits : nat := 4300.

Section Parser.

Context (U : unicode).

Definition is_digit (c : char) : bool := bool_decide (is_Some (decimal U c)).

(** The number that a run of decimal digits writes. *)
Definition int_of (ds : pystr) : Z :=
  fold_left (fun acc c => 10 * acc + default 0 (decimal U c)) ds 0.

(** [int(ds)] on a run of decimal digits: [None] is the [ValueError] of a
    run longer than the interpreter converts. *)
Definition py_int (ds : pystr) : option Z :=
  if (max_str_digits <? length ds)%nat then None else Some (int_of ds).

(** A literal of the pattern against the head of the text, letter case
    ignored; the text after it. *)
Fixpoint literal (pat s : pystr) : option pystr :=
  match pat, s with
  | [], _ => Some s
  | _ :: _, [] => None
  | p :: pat', c :: s' => if casematch U p c then literal pat' s' else None
  end.

(** The pattern [(\d+)\s+in stock] tried at the head of [s]: group 1. *)
Definition group_here (s : pystr) : option pystr :=
  let '(ds, r1) := span is_digit s in
  if bool_decide (ds = []) then None else
  let '(ws, r2) := span (isspace U) r1 in
  if bool_decide (ws = []) then None else
  match literal (py "in stock") r2 with
  | Some _ => Some ds
  | None => None
  end.

(** [re.search(r'(\d+)\s+in stock', s, re.IGNORECASE)], then [group(1)]:
    the digits of the match that starts first. *)
Fixpoint re_search (s : pystr) : option pystr :=
  match group_here s with
  | Some ds => Some ds
  | None =>
      match s with
      | [] => None
      | _ :: s' => re_search s'
      end
  end.

(** [get_text] stands for [BeautifulSoup(html, 'html.parser').get_text()];
    it is [None] when the HTML parser raises. *)
Context (get_text : pystr → option pystr).

(** [parse_stock]: [None] is the value of the [except] branch, which is
    reached from the HTML parser, from [int] and from [in] with a marker
    that is not a string. *)
Definition parse_stock (html : pystr) (out_of_stock_text : jvalue)
    : option quantity :=
  match get_text html with
  | None => None
  | Some text =>
      match re_search text with
      | Some ds => QInt <$> py_int ds
      | None =>
          match out_of_stock_text with
          | JStr marker =>
              if contains marker text then Some (QInt 0) else Some QInf
          | JOther => None
          end
      end
  end.

End Parser.

(** ** What a match is

    The pattern matches at the head of [s] when [s] begins with a non-empty
    run of digits, then a non-empty run of white space, then the letters of
    the literal in either case. *)
Definition HeadMatch (U : unicode) (s : pystr) (n : Z) : Prop :=
  ∃ ds ws lit post,
    s = ds ++ ws ++ lit ++ post ∧
    ds ≠ [] ∧ Forall (λ c, is_digit U c = true) ds ∧
    ws ≠ [] ∧ Forall (λ c, isspace U c = true) ws ∧
    Forall2 (λ p c, casematch U p c = true) (py "in stock") lit ∧
    n = int_of U ds.

(** The same with the digits of group 1 in place of the number they
    write. *)
Definition HeadGroup (U : unicode) (s ds : pystr) : Prop :=
  ∃ ws lit post,
    s = ds ++ ws ++ lit ++ post ∧
    ds ≠ [] ∧ Forall (λ c, is_digit U c = true) ds ∧
    ws ≠ [] ∧ Forall (λ c, isspace U c = true) ws ∧
    Forall2 (λ p c, casematch U p c = true) (py "in stock") lit.

Definition GroupAt (U : unicode) (text : pystr) (i : nat) (ds : pystr)
    : Prop :=
  ∃ pre s, text = pre ++ s ∧ length pre = i ∧ HeadGroup U s ds.

(** The pattern matches in [text] from position [i] on, with group 1
    reading [n]. *)
Definition MatchAt (U : unicode) (text : pystr) (i : nat) (n : Z) : Prop :=
  ∃ pre s, text = pre ++ s ∧ length pre = i ∧ HeadMatch U s n.

(** [sub] occurs in [text]. *)
Definition Substring (sub text : pystr) : Prop :=
  ∃ pre post, text = pre ++ sub ++ post.

(** ** The page fetcher *)

(** How one [scraper.get(url)] ends: a response with its status code and
    body, or an exception. *)
Inductive response :=
  | Response (status_code : Z) (text : pystr)
  | GetRaised.

(** The calls that leave the process, in the order they are made. *)
Inductive event :=
  | Get (url : pystr)
  | Sleep (seconds : Z)
  | SendMessage (chat_id text : pystr)
  | EditMessageText (chat_id : pystr) (message_id : Z) (text : pystr).

(** The body of [for attempt in range(retries)] with [retries - attempt]
    rounds left; [scraper k] is how the [k]-th request ends. *)
Fixpoint fetch_attempts (scraper : nat → response) (url : pystr)
    (attempt rounds : nat) : option pystr * list event :=
  match rounds with
  | O => (None, [])
  | S rounds' =>
      match scraper attempt with
      | Response status_code text =>
          if status_code =? 200 then (Some text, [Get url])
          else
            let '(r, tr) := fetch_attempts scraper url (S attempt) rounds' in
            (r, Get url :: tr)
      | GetRaised =>
          let '(r, tr) := fetch_attempts scraper url (S attempt) rounds' in
          (r, Get url :: Sleep 2 :: tr)
      end
  end.

(** [fetch_html]; [cfscrape.create_scraper()], which stands before the loop,
    is taken to return. *)
Definition fetch_html (scraper : nat → response) (url : pystr)
    (retries : nat) : option pystr * list event :=
  fetch_attempts scraper url 0 retries.

(** ** The configuration

    The JSON object that [load_config] returns.  The keys that shape the
    loops ([merchants], [name], [stock_urls], [url]) are fields.  The other
    keys are optional: [telegram_token] is read by [send_notification] before
    its handler, the keys of the message and [telegram_chat_id] inside it,
    and reading one that is absent raises [KeyError] at that place. *)
Record stock := {
  url : pystr;
  title : option pystr;
  price : option pystr;
  hardware_info : option pystr
}.

Record merchant := {
  name : pystr;
  tag : option pystr;
  coupon_monthly : option pystr;
  coupon_annual : option pystr;
  out_of_stock_text : option jvalue;
  stock_urls : list stock
}.

Record config := {
  telegram_token : option pystr;
  telegram_chat_id : option pystr;
  check_interval : option Z;
  merchants : list merchant
}.

(** ** How a call ends *)

(** A value, [sys.exit(code)], or an exception that nothing catches. *)
Inductive result (A : Type) :=
  | Return (a : A)
  | Exit (code : Z)
  | Raise.
Arguments Return {A} a.
Arguments Exit {A} code.
Arguments Raise {A}.

(** ** The notifier *)

Definition escape_markdown (text : pystr) : pystr := text.

Definition nl : pystr := [10%N].

(** [sep.join(l)] *)
Fixpoint join (sep : pystr) (l : list pystr) : pystr :=
  match l with
  | [] => []
  | [x] => x
  | x :: l' => x ++ sep ++ join sep l'
  end.

(** Truth value of a string *)
Definition nonempty (s : pystr) : bool :=
  match s with
  | [] => false
  | _ :: _ => true
  end.

(** [f"{label}`{merchant[key]}`" if merchant.get(key) else ""] *)
Definition coupon_line (label : pystr) (coupon : option pystr) : pystr :=
  match coupon with
  | Some c => if nonempty c then label ++ py "`" ++ c ++ py "`" else []
  | None => []
  end.

(** The text of the message; [None] when a key is missing. *)
Definition compose (m : merchant) (s : stock) (stock_quantity : quantity)
    : option pystr :=
  t ← title s;
  let title := name m ++ py "-" ++ t in
  tag ← escape_markdown <$> tag m;
  price ← escape_markdown <$> price s;
  hw ← escape_markdown <$> hardware_info s;
  let hardware_info := py "[" ++ hw ++ py "](" ++ url s ++ py ")" in
  let stock_info :=
    py "🛒[库存：" ++ (if gt0 stock_quantity then py "有" else py "无")
    ++ py "](" ++ url s ++ py ")" in
  let monthly_coupon := coupon_line (py "Monthly：") (coupon_monthly m) in
  let annual_coupon := coupon_line (py "Annually：") (coupon_annual m) in
  let coupon_info := join nl (filter (λ x, nonempty x = true)
                                     [monthly_coupon; annual_coupon]) in
  let coupon_section :=
    if nonempty coupon_info then nl ++ nl ++ coupon_info ++ nl ++ nl
    else nl ++ nl in
  Some (title ++ nl ++ nl ++ tag ++ nl ++ nl ++ py "ℹ️" ++ hardware_info
        ++ coupon_section ++ py "💰Price: " ++ price ++ nl ++ nl
        ++ stock_info).

(** How a call of the chat API ends. *)
Inductive sent :=
  | Sent (message_id : Z)
  | SendRaised.

Inductive edited :=
  | Edited
  | EditBadRequest
  | EditRaised.

Record telegram := {
  send_message : sent;
  edit_message_text : edited
}.

(** [Bot(token=config['telegram_token'])] raises: [KeyError] when the key is
    absent, the [InvalidToken] of the constructor when the token is empty. *)
Definition bot_raises (cfg : config) : bool :=
  match telegram_token cfg with
  | Some token => negb (nonempty token)
  | None => true
  end.

(** The [try] statement of [send_notification] with the [return None] after
    it: the returned identifier and the calls made.  Every way out of the
    [try] other than the [return] in the send branch ends in that
    [return None]. *)
Definition notify (bot : telegram) (cfg : config) (m : merchant)
    (s : stock) (stock_quantity : quantity) (message_id : option Z)
    : option Z * list event :=
  match compose m s stock_quantity with
  | None => (None, [])
  | Some message =>
      if gt0 stock_quantity then
        match telegram_chat_id cfg with
        | None => (None, [])
        | Some chat =>
            match send_message bot with
            | Sent id => (Some id, [SendMessage chat message])
            | SendRaised => (None, [SendMessage chat message])
            end
        end
      else
        match message_id with
        | None => (None, [])
        | Some id =>
            if id =? 0 then (None, [])
            else
              match telegram_chat_id cfg with
              | None => (None, [])
              | Some chat =>
                  match edit_message_text bot with
                  | Edited | EditBadRequest | EditRaised =>
                      (None, [EditMessageText chat id message])
                  end
              end
        end
  end.

(** [send_notification]: the constructor of the client, which stands before
    the [try] and whose exception leaves the function, then the [try]. *)
Definition send_notification (bot : telegram) (cfg : config) (m : merchant)
    (s : stock) (stock_quantity : quantity) (message_id : option Z)
    : result (option Z) * list event :=
  if bot_raises cfg then (Raise, [])
  else
    let '(r, tr) := notify bot cfg m s stock_quantity message_id in
    (Return r, tr).

(** ** The poll loop *)

(** [merchant_status] and [message_ids] of [main].  A stored message
    identifier may be [None]. *)
Record state := {
  merchant_status : gmap pystr (gmap pystr bool);
  message_ids : gmap pystr (option Z)
}.

Definition initial : state :=
  {| merchant_status := ∅; message_ids := ∅ |}.

(** [ms.get(name, {}).get(url, {'in_stock': False})['in_stock']] *)
Definition status_of (ms : gmap pystr (gmap pystr bool)) (n u : pystr)
    : bool :=
  default false (ms !! n ≫= (λ t, t !! u)).

(** [previous_status['in_stock']] *)
Definition previous_status (st : state) (n u : pystr) : bool :=
  status_of (merchant_status st) n u.

(** [merchant_status.setdefault(name, {})[url] = {'in_stock': b}] *)
Definition set_status (n u : pystr) (b : bool)
    (ms : gmap pystr (gmap pystr bool)) : gmap pystr (gmap pystr bool) :=
  <[n := <[u := b]> (default ∅ (ms !! n))]> ms.

(** What one target meets while it is checked: the HTTP client and the chat
    API. *)
Record world := {
  scraper : nat → response;
  bot : telegram
}.

Definition is_notifier (e : event) : bool :=
  match e with
  | SendMessage _ _ | EditMessageText _ _ _ => true
  | _ => false
  end.

Definition is_send (e : event) : bool :=
  match e with
  | SendMessage _ _ => true
  | _ => false
  end.

Definition is_edit (e : event) : bool :=
  match e with
  | EditMessageText _ _ _ => true
  | _ => false
  end.

(** ** The single-instance guard *)

(** What the process finds of the files it locks: the paths that
    [open(path, 'w')] opens, and for each path the process that holds the
    lock on the file, if any. *)
Record os := {
  can_open : pystr → bool;
  locks : gmap pystr nat
}.

(** The default of the parameter [lock_file_path]. *)
Definition default_lock_file_path : pystr := py "/tmp/monitor_script.lock".

(** The process that holds the lock that [main] asks for. *)
Definition lock_holder (o : os) : option nat :=
  locks o !! default_lock_file_path.

(** [fcntl.flock(f, LOCK_EX | LOCK_NB)] by process [pid] on the file at
    [path], which it has just opened; [None] is the [IOError] of a lock that
    is held. *)
Definition flock_ex_nb (pid : nat) (path : pystr) (o : os) : option os :=
  match locks o !! path with
  | None => Some {| can_open := can_open o;
                    locks := <[path := pid]> (locks o) |}
  | Some _ => None
  end.

(** [fcntl.flock(f, LOCK_UN)] *)
Definition flock_un (pid : nat) (path : pystr) (o : os) : os :=
  match locks o !! path with
  | Some p =>
      if decide (p = pid)
      then {| can_open := can_open o; locks := delete path (locks o) |}
      else o
  | None => o
  end.

Record lock_file := { owner : nat; path : pystr }.

(** [acquire_lock]: [open] stands before the [try], so its exception leaves
    the function; the handler turns the [IOError] of [flock] into
    [sys.exit(1)]. *)
Definition acquire_lock (pid : nat) (lock_file_path : pystr) (o : os)
    : os * result lock_file :=
  if can_open o lock_file_path then
    match flock_ex_nb pid lock_file_path o with
    | Some o' => (o', Return {| owner := pid; path := lock_file_path |})
    | None => (o, Exit 1)
    end
  else (o, Raise).

(** One statement after another: the second runs when the first returns,
    and an exit or an exception of the first ends both. *)
Definition and_then {A B : Type} (c : result A * list event)
    (k : A → result B * list event) : result B * list event :=
  match c with
  | (Return a, tr) => let '(r, tr') := k a in (r, tr ++ tr')
  | (Exit code, tr) => (Exit code, tr)
  | (Raise, tr) => (Raise, tr)
  end.

Section Monitor.

Context (U : unicode) (get_text : pystr → option pystr).

Definition check_stock (scraper : nat → response) (url : pystr)
    (out_of_stock_text : jvalue) : option quantity * list event :=
  let '(html, tr) := fetch_html scraper url 3 in
  match html with
  | None => (None, tr)
  | Some html => (parse_stock U get_text html out_of_stock_text, tr)
  end.

(** The body of [for stock in merchant['stock_urls']]: how it ends and the
    calls it makes.  An exception of [send_notification] leaves the body
    before the tables are written. *)
Definition loop_body (cfg : config) (m : merchant) (s : stock) (w : world)
    (st : state) : result state * list event :=
  let out_of_stock_text :=
    default (JStr (py "缺货")) (out_of_stock_text m) in
  let previous := previous_status st (name m) (url s) in
  let '(stock_quantity, tr) :=
    check_stock (scraper w) (url s) out_of_stock_text in
  match stock_quantity with
  | None => (Return st, tr)
  | Some q =>
      if gt0 q && negb previous then
        match send_notification (bot w) cfg m s q None with
        | (Return message_id, tr') =>
            (Return
               {| merchant_status :=
                    set_status (name m) (url s) true (merchant_status st);
                  message_ids := <[url s := message_id]> (message_ids st) |},
             tr ++ tr')
        | (Exit code, tr') => (Exit code, tr ++ tr')
        | (Raise, tr') => (Raise, tr ++ tr')
        end
      else if eq0 q && previous then
        match send_notification (bot w) cfg m s q
                (message_ids st !! url s ≫= id) with
        | (Return _, tr') =>
            (Return
               {| merchant_status :=
                    set_status (name m) (url s) false (merchant_status st);
                  message_ids := message_ids st |},
             tr ++ tr')
        | (Exit code, tr') => (Exit code, tr ++ tr')
        | (Raise, tr') => (Raise, tr ++ tr')
        end
      else (Return st, tr)
  end.

(** The tables and the calls when the body has ended, by falling through or
    by an exception. *)
Definition visit (cfg : config) (m : merchant) (s : stock) (w : world)
    (st : state) : state * list event :=
  match loop_body cfg m s w st with
  | (Return st', tr) => (st', tr)
  | (_, tr) => (st, tr)
  end.

(** The body ends by an exception. *)
Definition visit_raises (cfg : config) (m : merchant) (s : stock)
    (w : world) (st : state) : bool :=
  match fst (loop_body cfg m s w st) with
  | Return _ => false
  | _ => true
  end.

(** [for stock in merchant['stock_urls']]; [env i] is what the [i]-th
    target of the merchant meets. *)
Fixpoint for_stocks (cfg : config) (m : merchant) (env : nat → world)
    (i : nat) (ss : list stock) (st : state) : result state * list event :=
  match ss with
  | [] => (Return st, [])
  | s :: ss' =>
      and_then (loop_body cfg m s (env i) st)
        (λ st1, for_stocks cfg m env (S i) ss' st1)
  end.

(** [for merchant in config['merchants']] *)
Fixpoint for_merchants (cfg : config) (env : nat → nat → world)
    (i : nat) (ms : list merchant) (st : state)
    : result state * list event :=
  match ms with
  | [] => (Return st, [])
  | m :: ms' =>
      and_then (for_stocks cfg m (env i) 0 (stock_urls m) st)
        (λ st1, for_merchants cfg env (S i) ms' st1)
  end.

(** One round of [while True] after the configuration is loaded. *)
Definition poll_cycle (cfg : config) (env : nat → nat → world)
    (st : state) : result state * list event :=
  and_then (for_merchants cfg env 0 (merchants cfg) st)
    (λ st', (Return st', [Sleep (default 600 (check_interval cfg))])).

(** [while True], watched for as many rounds as [loads] has entries:
    [loads] lists how each [load_config()] ends, [None] for an exception.
    The result is the state when the last watched round is over, or [Raise]
    when a load or a visit raised. *)
Fixpoint main_loop (loads : list (option config))
    (env : nat → nat → nat → world) (round : nat) (st : state)
    : result state * list event :=
  match loads with
  | [] => (Return st, [])
  | None :: _ => (Raise, [])
  | Some cfg :: loads' =>
      and_then (poll_cycle cfg (env round) st)
        (λ st1, main_loop loads' env (S round) st1)
  end.

(** [main]: the guard, then the loop inside [try ... finally]. *)
Definition main (pid : nat) (o : os) (loads : list (option config))
    (env : nat → nat → nat → world) : os * result state * list event :=
  match acquire_lock pid default_lock_file_path o with
  | (o', Return lock_file) =>
      match main_loop loads env 0 initial with
      | (Return st, tr) => (o', Return st, tr)
      | (r, tr) => (flock_un (owner lock_file) (path lock_file) o', r, tr)
      end
  | (o', Exit code) => (o', Exit code, [])
  | (o', Raise) => (o', Raise, [])
  end.

End Monitor.

(** An attempt that does not end in status 200. *)
Definition failed (r : response) : bool :=
  match r with
  | Response status_code _ => negb (status_code =? 200)
  | GetRaised => true
  end.

Definition is_get (e : event) : bool :=
  match e with
  | Get _ => true
  | _ => false
  end.

(** The calls of the chat API in a trace. *)
Definition notifier_calls (tr : list event) : list event :=
  filter (λ e, is_notifier e = true) tr.

Definition is_sleep (e : event) : bool :=
  match e with
  | Sleep _ => true
  | _ => false
  end.

(** ** Sequences of visits

    A visit is one pass through the body of the inner loop: a configuration,
    a merchant and a target of it, and what the target meets. *)
Record job := {
  j_config : config;
  j_merchant : merchant;
  j_stock : stock;
  j_world : world
}.

Section Runs.

Context (U : unicode) (get_text : pystr → option pystr).

Definition run_job (j : job) (st : state) : state * list event :=
  visit U get_text (j_config j) (j_merchant j) (j_stock j) (j_world j) st.

(** The visit ends by an exception, which ends the process. *)
Definition job_raises (j : job) (st : state) : bool :=
  visit_raises U get_text (j_config j) (j_merchant j) (j_stock j)
    (j_world j) st.

(** The visits of [js] one after the other, up to the first that raises:
    the tables and the calls when they are over. *)
Fixpoint run (js : list job) (st : state) : state * list event :=
  match js with
  | [] => (st, [])
  | j :: js' =>
      let '(st1, t1) := run_job j st in
      if job_raises j st then (st1, t1)
      else
        let '(st2, t2) := run js' st1 in
        (st2, t1 ++ t2)
  end.

(** One of the visits of [js] raises. *)
Fixpoint run_raises (js : list job) (st : state) : bool :=
  match js with
  | [] => false
  | j :: js' => job_raises j st || run_raises js' (fst (run_job j st))
  end.

(** How the run of [js] ends, and the calls it makes. *)
Definition run_result (js : list job) (st : state)
    : result state * list event :=
  (if run_raises js st then Raise else Return (fst (run js st)),
   snd (run js st)).

(** The visits of the loops, in the order the loops make them. *)
Fixpoint stock_jobs (cfg : config) (m : merchant) (env : nat → world)
    (i : nat) (ss : list stock) : list job :=
  match ss with
  | [] => []
  | s :: ss' =>
      {| j_config := cfg; j_merchant := m; j_stock := s;
         j_world := env i |} :: stock_jobs cfg m env (S i) ss'
  end.

Fixpoint merchant_jobs (cfg : config) (env : nat → nat → world) (i : nat)
    (ms : list merchant) : list job :=
  match ms with
  | [] => []
  | m :: ms' =>
      stock_jobs cfg m (env i) 0 (stock_urls m)
      ++ merchant_jobs cfg env (S i) ms'
  end.

Fixpoint loop_jobs (loads : list (option config))
    (env : nat → nat → nat → world) (round : nat) : list job :=
  match loads with
  | [] => []
  | None :: _ => []
  | Some cfg :: loads' =>
      merchant_jobs cfg (env round) 0 (merchants cfg)
      ++ loop_jobs loads' env (S round)
  end.

(** The quantity that the visit reads, [None] when the check fails. *)
Definition quantity_of (j : job) : option quantity :=
  fst (check_stock U get_text (scraper (j_world j)) (url (j_stock j))
         (default (JStr (py "缺货")) (out_of_stock_text (j_merchant j)))).

(** The visit finds the target in stock and remembers it out of stock. *)
Definition comes_in (j : job) (st : state) : Prop :=
  ∃ q, quantity_of j = Some q ∧ gt0 q = true ∧
       previous_status st (name (j_merchant j)) (url (j_stock j)) = false.

(** The visit finds the target out of stock and remembers it in stock. *)
Definition goes_out (j : job) (st : state) : Prop :=
  ∃ q, quantity_of j = Some q ∧ eq0 q = true ∧
       previous_status st (name (j_merchant j)) (url (j_stock j)) = true.

(** What the [send_notification] of the send branch returns, when the
    visit takes that branch and the call returns. *)
Definition sent_id (j : job) (st : state) : option (option Z) :=
  match quantity_of j with
  | Some q =>
      if gt0 q
         && negb (previous_status st (name (j_merchant j))
                    (url (j_stock j)))
      then
        match fst (send_notification (bot (j_world j)) (j_config j)
                     (j_merchant j) (j_stock j) q None) with
        | Return r => Some r
        | _ => None
        end
      else None
  | None => None
  end.

(** What the latest send for the URL [u] returned in the run of [js] from
    [st]; [acc] when the run has none. *)
Fixpoint last_send (u : pystr) (js : list job) (st : state)
    (acc : option (option Z)) : option (option Z) :=
  match js with
  | [] => acc
  | j :: js' =>
      if job_raises j st then acc
      else
        last_send u js' (fst (run_job j st))
          (match sent_id j st with
           | Some r => if decide (url (j_stock j) = u) then Some r else acc
           | None => acc
           end)
  end.

(** No visit to the URL [u] in the run of [js] from [st] changes the
    state. *)
Fixpoint untouched (u : pystr) (js : list job) (st : state) : Prop :=
  match js with
  | [] => True
  | j :: js' =>
      (url (j_stock j) = u → fst (run_job j st) = st) ∧
      untouched u js' (fst (run_job j st))
  end.

(** The calls of the check of a visit. *)
Definition fetch_trace (j : job) : list event :=
  snd (check_stock U get_text (scraper (j_world j)) (url (j_stock j))
         (default (JStr (py "缺货")) (out_of_stock_text (j_merchant j)))).

(** A notification is due: the visit takes the send or the edit branch. *)
Definition due (j : job) (st : state) : bool :=
  match quantity_of j with
  | Some q =>
      let previous :=
        previous_status st (name (j_merchant j)) (url (j_stock j)) in
      gt0 q && negb previous || eq0 q && previous
  | None => false
  end.

(** The five ways through the body of the inner loop: the tables when the
    visit is over and the calls made. *)
Inductive step (j : job) (st : state) : state → list event → Prop :=
  | step_skip :
      quantity_of j = None →
      step j st st (fetch_trace j)
  | step_send q :
      quantity_of j = Some q →
      gt0 q = true →
      previous_status st (name (j_merchant j)) (url (j_stock j)) = false →
      bot_raises (j_config j) = false →
      step j st
        {| merchant_status :=
             set_status (name (j_merchant j)) (url (j_stock j)) true
               (merchant_status st);
           message_ids :=
             <[url (j_stock j) :=
                 fst (notify (bot (j_world j)) (j_config j)
                        (j_merchant j) (j_stock j) q None)]>
               (message_ids st) |}
        (fetch_trace j
         ++ snd (notify (bot (j_world j)) (j_config j)
                   (j_merchant j) (j_stock j) q None))
  | step_edit q :
      quantity_of j = Some q →
      eq0 q = true →
      previous_status st (name (j_merchant j)) (url (j_stock j)) = true →
      bot_raises (j_config j) = false →
      step j st
        {| merchant_status :=
             set_status (name (j_merchant j)) (url (j_stock j)) false
               (merchant_status st);
           message_ids := message_ids st |}
        (fetch_trace j
         ++ snd (notify (bot (j_world j)) (j_config j)
                   (j_merchant j) (j_stock j) q
                   (message_ids st !! url (j_stock j) ≫= id)))
  | step_same q :
      quantity_of j = Some q →
      gt0 q && negb (previous_status st (name (j_merchant j))
                       (url (j_stock j))) = false →
      eq0 q && previous_status st (name (j_merchant j))
                 (url (j_stock j)) = false →
      step j st st (fetch_trace j)
  | step_raise :
      due j st = true →
      bot_raises (j_config j) = true →
      step j st st (fetch_trace j).

End Runs.

(** The round trip as the specification words it: a visit on which the
    target goes out of stock edits the message whose identifier the latest
    send for its URL returned. *)
Definition edits_prior_send (U : unicode) (get_text : pystr → option pystr)
    (js : list job) (j : job) : Prop :=
  goes_out U get_text j (fst (run U get_text js initial)) →
  ∃ chat id text,
    last_send U get_text (url (j_stock j)) js initial None = Some (Some id) ∧
    EditMessageText chat id text
    ∈ snd (run_job U get_text j (fst (run U get_text js initial))).

(** ** Counting and paths *)

(** An attempt that ends in an exception. *)
Definition raised (r : response) : bool :=
  match r with
  | GetRaised => true
  | Response _ _ => false
  end.

(** How many of the [n] attempts from the [a]-th on end in an exception. *)
Fixpoint count_raised (scraper : nat → response) (a n : nat) : nat :=
  match n with
  | O => O
  | S n' =>
      (if raised (scraper a) then 1 else 0)%nat
      + count_raised scraper (S a) n'
  end.

(** The requests and the waits of a trace. *)
Definition gets (tr : list event) : list event :=
  filter (λ e, is_get e = true) tr.

Definition sleeps (tr : list event) : list event :=
  filter (λ e, is_sleep e = true) tr.

(** What one visit to the target of [j] may call: one to three requests,
    all for the URL of the target, and at most one call of the chat API. *)
Definition visit_calls (j : job) (tr : list event) : Prop :=
  (1 ≤ length (gets tr) ≤ 3)%nat ∧
  (∀ e, e ∈ gets tr → e = Get (url (j_stock j))) ∧
  (length (notifier_calls tr) ≤ 1)%nat.

(** [s.endswith(p)] *)
Definition endswith (p s : pystr) : bool :=
  startswith (reverse p) (reverse s).

(** [os.path.join(a, b)] on a POSIX system: an absolute [b] replaces [a]. *)
Definition path_join (a b : pystr) : pystr :=
  if startswith (py "/") b then b
  else if negb (nonempty a) || endswith (py "/") a then a ++ b
  else a ++ py "/" ++ b.

(** [load_config] in the working directory [cwd]; [read_json path] stands
    for [open(path)] and [json.load], [None] when either raises. *)
Definition load_config (read_json : pystr → option config)
    (cwd filename : pystr) : option config :=
  let config_path := path_join cwd filename in
  read_json config_path.

(** The default of the parameter [filename]. *)
Definition default_filename : pystr :=
  py "/root/monitor/商家名字/config.json".

(** ** A configuration to run the loop on *)

Definition vps : stock :=
  {| url := py "https://shop.example/cart?pid=7";
     title := Some (py "VPS-1G");
     price := Some (py "$10/yr");
     hardware_info := Some (py "1C/1G/20G") |}.

Definition shop : merchant :=
  {| name := py "Shop";
     tag := Some (py "#shop_restock");
     coupon_monthly := Some (py "SAVE10");
     coupon_annual := None;
     out_of_stock_text := None;
     stock_urls := [vps] |}.

(** A second merchant that lists the same target. *)
Definition reseller : merchant :=
  {| name := py "Reseller";
     tag := Some (py "#reseller");
     coupon_monthly := None;
     coupon_annual := None;
     out_of_stock_text := None;
     stock_urls := [vps] |}.

Definition settings : config :=
  {| telegram_token := Some (py "123:abc");
     telegram_chat_id := Some (py "@restock");
     check_interval := None;
     merchants := [shop] |}.

(** The same configuration with an empty token, and without the key. *)
Definition empty_token : config :=
  {| telegram_token := Some [];
     telegram_chat_id := Some (py "@restock");
     check_interval := None;
     merchants := [shop] |}.

Definition no_token : config :=
  {| telegram_token := None;
     telegram_chat_id := Some (py "@restock");
     check_interval := None;
     merchants := [shop] |}.

(** A system on which every file opens and no lock is held, and one on which
    no file opens. *)
Definition free_os : os := {| can_open := λ _, true; locks := ∅ |}.

Definition closed_os : os := {| can_open := λ _, false; locks := ∅ |}.

(** A system on which process 1 holds the lock of [main]. *)
Definition held_os : os :=
  {| can_open := λ _, true; locks := {[default_lock_file_path := 1%nat]} |}.

(** A server that answers with the page [body], and a chat API whose
    [send_message] ends as [send]. *)
Definition serving (body : pystr) (send : sent) : world :=
  {| scraper := λ _, Response 200 body;
     bot := {| send_message := send; edit_message_text := Edited |} |}.

(** A server that cannot be reached. *)
Definition unreachable : world :=
  {| scraper := λ _, GetRaised;
     bot := {| send_message := SendRaised; edit_message_text := Edited |} |}.

Definition checking (w : world) : job :=
  {| j_config := settings; j_merchant := shop; j_stock := vps;
     j_world := w |}.

(** The message for [vps] at quantity [q]. *)
Definition message_for (q : quantity) : pystr :=
  default [] (compose shop vps q).

Example py_marker : py "缺货" = [32570; 36135]%N.
Proof. reflexivity. Qed.

Example parse_count :
  parse_stock basic_tables Some (py "Only 12  IN Stock now")
    (JStr (py "缺货")) = Some (QInt 12).
Proof. vm_compute. reflexivity. Qed.

Example parse_marker :
  parse_stock basic_tables Some (py "VPS 缺货") (JStr (py "缺货"))
  = Some (QInt 0).
Proof. vm_compute. reflexivity. Qed.

Example parse_unbounded :
  parse_stock basic_tables Some (py "Order now") (JStr (py "缺货"))
  = Some QInf.
Proof. vm_compute. reflexivity. Qed.

Example parse_null_marker :
  parse_stock basic_tables Some (py "Order now") JOther = None.
Proof. vm_compute. reflexivity. Qed.

(** The scenario of a target that comes into stock, runs out and comes
    back: a message, an edit of that message, a new message. *)
Example restock_scenario :
  notifier_calls
    (snd (run basic_tables Some
            [checking (serving (py "5 in stock") (Sent 41));
             checking (serving (py "缺货") (Sent 42));
             checking (serving (py "12 in Stock") (Sent 43))]
            initial))
  = [SendMessage (py "@restock") (message_for (QInt 5));
     EditMessageText (py "@restock") 41 (message_for (QInt 0));
     SendMessage (py "@restock") (message_for (QInt 12))].
Proof. vm_compute. reflexivity. Qed.

(** * The parser *)

Lemma span_app p s a b :
  span p s = (a, b) → s = a ++ b ∧ Forall (λ c, p c = true) a.
Proof.
  revert a b. induction s as [|c s IH]; simpl; intros a b H.
  - by inversion H.
  - destruct (p c) eqn:E.
    + destruct (span p s) as [a' b'] eqn:E'. inversion H; subst.
      destruct (IH a' b eq_refl) as [-> Ha]. split; [done|]. by constructor.
    + inversion H; subst. split; [done|constructor].
Qed.

Lemma span_longest p a b :
  Forall (λ c, p c = true) a →
  match b with [] => True | c :: _ => p c = false end →
  span p (a ++ b) = (a, b).
Proof.
  induction 1 as [|c a Hc _ IH]; intros Hb; simpl.
  - destruct b as [|c b]; [done|]. simpl. by rewrite Hb.
  - rewrite Hc, IH by done. done.
Qed.

Lemma startswith_iff p s :
  startswith p s = true ↔ ∃ post, s = p ++ post.
Proof.
  revert s. induction p as [|a p IH]; intros s; simpl.
  - split; eauto.
  - destruct s as [|b s].
    + split; [done|]. by intros [? ?].
    + rewrite andb_true_iff, N.eqb_eq, IH. split.
      * intros [-> [post ->]]. eauto.
      * intros [post H]. inversion H; subst. eauto.
Qed.

Lemma contains_iff sub s : contains sub s = true ↔ Substring sub s.
Proof.
  unfold Substring. induction s as [|c s IH]; simpl.
  - rewrite orb_false_r, startswith_iff. split.
    + intros [post H]. by exists [], post.
    + intros (pre & post & H). destruct pre; [|done]. eauto.
  - rewrite orb_true_iff, startswith_iff, IH. split.
    + intros [[post H]|(pre & post & H)].
      * by exists [], post.
      * exists (c :: pre), post. by rewrite H.
    + intros (pre & post & H). destruct pre as [|c' pre].
      * left. eauto.
      * right. inversion H; subst. eauto.
Qed.

Section ParserFacts.

Context (U : unicode).

Lemma literal_iff pat s r :
  literal U pat s = Some r ↔
  ∃ lit, s = lit ++ r ∧ Forall2 (λ p c, casematch U p c = true) pat lit.
Proof.
  revert s. induction pat as [|p pat IH]; intros s; simpl.
  - split.
    + intros [= ->]. exists []. split; [done|constructor].
    + intros (lit & -> & H). by inversion H.
  - destruct s as [|c s].
    + split; [done|]. intros (lit & H1 & H2). inversion H2; subst. done.
    + destruct (casematch U p c) eqn:E.
      * rewrite IH. split.
        -- intros (lit & -> & H). exists (c :: lit). split; [done|].
           by constructor.
        -- intros (lit & H1 & H2). inversion H2; subst.
           inversion H1; subst. eauto.
      * split; [done|]. intros (lit & H1 & H2). inversion H2; subst.
        inversion H1; subst. congruence.
Qed.

Lemma group_here_iff s ds : group_here U s = Some ds ↔ HeadGroup U s ds.
Proof.
  unfold group_here, HeadGroup. split.
  - destruct (span (is_digit U) s) as [ds' r1] eqn:E1.
    case_bool_decide as Hds; [done|].
    destruct (span (isspace U) r1) as [ws r2] eqn:E2.
    case_bool_decide as Hws; [done|].
    destruct (literal U (py "in stock") r2) as [post|] eqn:E3; [|done].
    intros [= <-].
    apply span_app in E1 as [-> Hd]. apply span_app in E2 as [-> Hw].
    apply literal_iff in E3 as (lit & -> & Hl).
    by exists ws, lit, post.
  - intros (ws & lit & post & -> & Hds & Hd & Hws & Hw & Hl).
    assert (∃ c lit', lit = c :: lit' ∧ isspace U c = false)
      as (c & lit' & -> & Hc).
    { change (py "in stock") with (105%N :: py "n stock") in Hl.
      inversion Hl as [|p c pat' lit' Hpc Hrest]; subst.
      exists c, lit'. split; [done|]. by apply letter_i_not_space. }
    destruct ws as [|w ws]; [done|].
    assert (is_digit U w = false) as Hwd.
    { inversion Hw; subst. unfold is_digit.
      rewrite (space_not_decimal U w) by done.
      apply bool_decide_eq_false. by intros [? ?]. }
    rewrite (span_longest (is_digit U) ds ((w :: ws) ++ (c :: lit') ++ post))
      by done.
    rewrite bool_decide_eq_false_2 by done.
    rewrite (span_longest (isspace U) (w :: ws) ((c :: lit') ++ post))
      by done.
    rewrite bool_decide_eq_false_2 by done.
    destruct (literal U (py "in stock") ((c :: lit') ++ post)) eqn:E; [done|].
    assert (literal U (py "in stock") ((c :: lit') ++ post) = Some post)
      by (apply literal_iff; eauto).
    congruence.
Qed.

(** A match reads the number that its digits write. *)
Lemma HeadMatch_group s n :
  HeadMatch U s n ↔ ∃ ds, HeadGroup U s ds ∧ n = int_of U ds.
Proof.
  unfold HeadMatch, HeadGroup. split.
  - intros (ds & ws & lit & post & ? & ? & ? & ? & ? & ? & ?).
    exists ds. split; [|done]. by exists ws, lit, post.
  - intros (ds & (ws & lit & post & ? & ? & ? & ? & ? & ?) & ?).
    by exists ds, ws, lit, post.
Qed.

Lemma MatchAt_group text i n :
  MatchAt U text i n ↔ ∃ ds, GroupAt U text i ds ∧ n = int_of U ds.
Proof.
  unfold MatchAt, GroupAt. split.
  - intros (pre & s & ? & ? & H). apply HeadMatch_group in H as (ds & ? & ?).
    exists ds. split; [|done]. by exists pre, s.
  - intros (ds & (pre & s & ? & ? & H) & ?). exists pre, s.
    split; [done|]. split; [done|]. apply HeadMatch_group. eauto.
Qed.

Lemma GroupAt_head s ds : GroupAt U s 0 ds ↔ HeadGroup U s ds.
Proof.
  unfold GroupAt. split.
  - intros (pre & s' & -> & Hl & H). by destruct pre.
  - intros H. by exists [], s.
Qed.

Lemma GroupAt_tail c s i ds : GroupAt U (c :: s) (S i) ds ↔ GroupAt U s i ds.
Proof.
  unfold GroupAt. split.
  - intros (pre & s' & He & Hl & H). destruct pre as [|c' pre]; [done|].
    inversion He; subst. simpl in Hl. exists pre, s'. eauto with lia.
  - intros (pre & s' & -> & <- & H). by exists (c :: pre), s'.
Qed.

Lemma GroupAt_nil i ds : GroupAt U [] (S i) ds → False.
Proof. intros (pre & s' & He & Hl & H). by destruct pre. Qed.

Lemma GroupAt_drop text i ds :
  GroupAt U text i ds → group_here U (drop i text) = Some ds.
Proof.
  intros (pre & s & -> & <- & H). rewrite drop_app_length.
  by apply group_here_iff.
Qed.

Lemma re_search_eq s :
  re_search U s =
  match group_here U s with
  | Some ds => Some ds
  | None => match s with [] => None | _ :: s' => re_search U s' end
  end.
Proof. by destruct s. Qed.

(** The search returns the digits of the match that starts first. *)
Lemma re_search_Some s ds :
  re_search U s = Some ds ↔
  ∃ i, GroupAt U s i ds ∧ ∀ j ds', (j < i)%nat → ¬ GroupAt U s j ds'.
Proof.
  revert ds. induction s as [|c s IH]; intros ds; rewrite re_search_eq.
  - destruct (group_here U []) as [k|] eqn:E.
    + split.
      * intros [= ->]. exists 0%nat. rewrite GroupAt_head, <- group_here_iff.
        split; [done|lia].
      * intros ([|i] & H & _).
        -- apply GroupAt_head, group_here_iff in H. congruence.
        -- by apply GroupAt_nil in H.
    + split; [done|]. intros ([|i] & H & _).
      * apply GroupAt_head, group_here_iff in H. congruence.
      * by apply GroupAt_nil in H.
  - destruct (group_here U (c :: s)) as [k|] eqn:E.
    + split.
      * intros [= ->]. exists 0%nat. rewrite GroupAt_head, <- group_here_iff.
        split; [done|lia].
      * intros ([|i] & H & Hmin).
        -- apply GroupAt_head, group_here_iff in H. congruence.
        -- exfalso. apply (Hmin 0%nat k); [lia|].
           by apply GroupAt_head, group_here_iff.
    + rewrite IH. split.
      * intros (i & H & Hmin). exists (S i). split.
        -- by apply GroupAt_tail.
        -- intros [|j] m Hj Hm.
           ++ apply GroupAt_head, group_here_iff in Hm. congruence.
           ++ apply GroupAt_tail in Hm. apply (Hmin j m); [lia|done].
      * intros ([|i] & H & Hmin).
        -- apply GroupAt_head, group_here_iff in H. congruence.
        -- exists i. split; [by apply GroupAt_tail in H|].
           intros j m Hj Hm. apply (Hmin (S j) m); [lia|].
           by apply GroupAt_tail.
Qed.

Lemma re_search_None s :
  re_search U s = None ↔ ∀ i ds, ¬ GroupAt U s i ds.
Proof.
  induction s as [|c s IH]; rewrite re_search_eq.
  - destruct (group_here U []) as [k|] eqn:E.
    + split; [done|]. intros H. exfalso. apply (H 0%nat k).
      by apply GroupAt_head, group_here_iff.
    + split; [|done]. intros _ [|i] n H.
      * apply GroupAt_head, group_here_iff in H. congruence.
      * by apply GroupAt_nil in H.
  - destruct (group_here U (c :: s)) as [k|] eqn:E.
    + split; [done|]. intros H. exfalso. apply (H 0%nat k).
      by apply GroupAt_head, group_here_iff.
    + rewrite IH. split.
      * intros H [|i] n Hm.
        -- apply GroupAt_head, group_here_iff in Hm. congruence.
        -- apply GroupAt_tail in Hm. by apply (H i n).
      * intros H i n Hm. apply (H (S i) n). by apply GroupAt_tail.
Qed.

Lemma int_of_nonneg ds : 0 ≤ int_of U ds.
Proof.
  unfold int_of.
  assert (∀ acc, 0 ≤ acc →
    0 ≤ fold_left (λ acc c, 10 * acc + default 0 (decimal U c)) ds acc)
    as H; [|by apply H].
  induction ds as [|c ds IH]; intros acc Hacc; simpl; [done|].
  apply IH. destruct (decimal U c) as [v|] eqn:E; simpl; [|lia].
  apply decimal_range in E. lia.
Qed.

Lemma py_int_Some ds n : py_int U ds = Some n → 0 ≤ n.
Proof.
  unfold py_int. destruct (max_str_digits <? length ds)%nat; [done|].
  intros [= <-]. apply int_of_nonneg.
Qed.

End ParserFacts.

(** C1, as the code has it.  [parse_stock] on a page whose text is [text],
    with a marker that is a string.  When the pattern "N in stock" (digits,
    white space, the words in either letter case) matches, take the match
    that starts first: when its run of digits has at most 4300 digits the
    result is the integer N that they write, a non-negative number, and when
    it has more the result is the failure value.  When the pattern does not
    match, the result is 0 if the marker occurs in the text and else the
    unbounded value, which is greater than 0. *)
Theorem parse_stock_precedence (U : unicode)
    (get_text : pystr → option pystr) (html marker text : pystr) :
  get_text html = Some text →
  (∀ i ds, GroupAt U text i ds →
           (∀ j ds', (j < i)%nat → ¬ GroupAt U text j ds') →
           ((length ds ≤ 4300)%nat →
            parse_stock U get_text html (JStr marker)
            = Some (QInt (int_of U ds)) ∧ 0 ≤ int_of U ds) ∧
           ((4300 < length ds)%nat →
            parse_stock U get_text html (JStr marker) = None)) ∧
  ((∀ i ds, ¬ GroupAt U text i ds) → Substring marker text →
   parse_stock U get_text html (JStr marker) = Some (QInt 0)) ∧
  ((∀ i ds, ¬ GroupAt U text i ds) → ¬ Substring marker text →
   parse_stock U get_text html (JStr marker) = Some QInf ∧
   gt0 QInf = true).
Proof.
  intros Ht. unfold parse_stock. rewrite Ht. split; [|split].
  - intros i ds Hm Hmin.
    assert (re_search U text = Some ds) as ->
      by (apply re_search_Some; eauto).
    unfold py_int, max_str_digits. split.
    + intros Hlen. destruct (Nat.ltb_spec 4300 (length ds)); [lia|].
      split; [done|]. apply int_of_nonneg.
    + intros Hlen. by destruct (Nat.ltb_spec 4300 (length ds)); [|lia].
  - intros Hno Hsub. apply re_search_None in Hno as ->.
    by apply contains_iff in Hsub as ->.
  - intros Hno Hsub. apply re_search_None in Hno as ->.
    destruct (contains marker text) eqn:E; [|done].
    by apply contains_iff in E.
Qed.

Lemma parse_stock_precedence_witness :
  (parse_stock basic_tables Some (py "Only 12  IN Stock now")
     (JStr (py "缺货")) = Some (QInt (int_of basic_tables (py "12"))) ∧
   0 ≤ int_of basic_tables (py "12")) ∧
  parse_stock basic_tables Some (py "VPS 缺货") (JStr (py "缺货"))
  = Some (QInt 0) ∧
  (parse_stock basic_tables Some (py "Order now") (JStr (py "缺货"))
   = Some QInf ∧ gt0 QInf = true).
Proof.
  split; [|split].
  - assert (re_search basic_tables (py "Only 12  IN Stock now")
            = Some (py "12")) as H by (vm_compute; reflexivity).
    apply re_search_Some in H as (i & Hm & Hmin).
    apply (proj1 (proj1 (parse_stock_precedence basic_tables Some
                           (py "Only 12  IN Stock now") (py "缺货") _
                           eq_refl)
                    i (py "12") Hm Hmin)).
    simpl. lia.
  - apply (proj1 (proj2 (parse_stock_precedence basic_tables Some
                           (py "VPS 缺货") (py "缺货") _ eq_refl))).
    + apply re_search_None. vm_compute. reflexivity.
    + apply contains_iff. vm_compute. reflexivity.
  - apply (proj2 (proj2 (parse_stock_precedence basic_tables Some
                           (py "Order now") (py "缺货") _ eq_refl))).
    + apply re_search_None. vm_compute. reflexivity.
    + intros H. apply contains_iff in H. vm_compute in H. discriminate.
Defined.

(** A page that reads "N in stock" with 4301 digits: the pattern matches and
    [parse_stock] returns the failure value, not the number. *)
Lemma count_beyond_int_limit :
  let text := replicate 4301 57%N ++ py " in stock" in
  GroupAt basic_tables text 0 (replicate 4301 57%N) ∧
  ¬ ∃ n, parse_stock basic_tables Some text (JStr (py "缺货"))
         = Some (QInt n).
Proof.
  cbv zeta. split.
  - apply GroupAt_head, group_here_iff. vm_compute. reflexivity.
  - intros [n H]. vm_compute in H. discriminate.
Qed.

(** * The page fetcher *)

Lemma fetch_attempts_None scraper u a n :
  fst (fetch_attempts scraper u a n) = None ↔
  ∀ k, (k < n)%nat → failed (scraper (a + k)%nat) = true.
Proof.
  revert a. induction n as [|n IH]; intros a; simpl.
  - split; [lia|done].
  - assert (∀ P : nat → Prop,
              (∀ k, (k < S n)%nat → P (a + k)%nat) ↔
              P a ∧ ∀ k, (k < n)%nat → P (S a + k)%nat) as Hsplit.
    { intros P. split.
      - intros H. split.
        + replace a with (a + 0)%nat by lia. apply H. lia.
        + intros k Hk. replace (S a + k)%nat with (a + S k)%nat by lia.
          apply H. lia.
      - intros [H0 H] [|k] Hk.
        + by replace (a + 0)%nat with a by lia.
        + replace (a + S k)%nat with (S a + k)%nat by lia. apply H. lia. }
    rewrite (Hsplit (λ i, failed (scraper i) = true)).
    destruct (scraper a) as [code body|] eqn:E; simpl.
    + destruct (code =? 200) eqn:Ec; simpl.
      * split; [done|]. by intros [? _].
      * destruct (fetch_attempts scraper u (S a) n) as [r tr] eqn:Ef.
        specialize (IH (S a)). rewrite Ef in IH. simpl in *.
        rewrite IH. tauto.
    + destruct (fetch_attempts scraper u (S a) n) as [r tr] eqn:Ef.
      specialize (IH (S a)). rewrite Ef in IH. simpl in *.
      rewrite IH. tauto.
Qed.

(** At most [n] requests in [n] rounds. *)
Lemma fetch_attempts_bounded scraper u a n :
  (length (filter (λ e, is_get e = true)
             (snd (fetch_attempts scraper u a n))) ≤ n)%nat.
Proof.
  revert a. induction n as [|n IH]; intros a; [simpl; lia|].
  cbn [fetch_attempts].
  destruct (scraper a) as [code body|].
  - destruct (code =? 200); [simpl; lia|].
    specialize (IH (S a)).
    destruct (fetch_attempts scraper u (S a) n) as [r tr]. cbn [snd] in *.
    rewrite filter_cons_True by done. simpl. lia.
  - specialize (IH (S a)).
    destruct (fetch_attempts scraper u (S a) n) as [r tr]. cbn [snd] in *.
    rewrite filter_cons_True by done. rewrite filter_cons_False by done.
    simpl. lia.
Qed.

(** The fetcher calls the HTTP client and the clock, never the chat API. *)
Lemma fetch_attempts_quiet scraper u a n :
  Forall (λ e, is_notifier e = false) (snd (fetch_attempts scraper u a n)).
Proof.
  revert a. induction n as [|n IH]; intros a; simpl; [constructor|].
  destruct (scraper a) as [code body|].
  - destruct (code =? 200); simpl; [by repeat constructor|].
    specialize (IH (S a)).
    destruct (fetch_attempts scraper u (S a) n) as [r tr]. by constructor.
  - specialize (IH (S a)).
    destruct (fetch_attempts scraper u (S a) n) as [r tr].
    by repeat constructor.
Qed.

(** An attempt that ends in a status other than 200 is followed by the next
    request at once. *)
Lemma fetch_attempts_status scraper u a n code body :
  scraper a = Response code body → code ≠ 200 →
  snd (fetch_attempts scraper u a (S n))
  = Get u :: snd (fetch_attempts scraper u (S a) n).
Proof.
  intros E Hc. simpl. rewrite E.
  destruct (Z.eqb_spec code 200) as [|_]; [done|].
  by destruct (fetch_attempts scraper u (S a) n).
Qed.

(** An attempt that raises is followed by a wait of 2 seconds, also when it
    is the last one. *)
Lemma fetch_attempts_raised scraper u a n :
  scraper a = GetRaised →
  snd (fetch_attempts scraper u a (S n))
  = Get u :: Sleep 2 :: snd (fetch_attempts scraper u (S a) n).
Proof.
  intros E. simpl. rewrite E.
  by destruct (fetch_attempts scraper u (S a) n).
Qed.

Lemma fetch_attempts_all_status scraper u a n :
  (∀ k, (k < n)%nat →
        ∃ code body, scraper (a + k)%nat = Response code body ∧ code ≠ 200) →
  fetch_attempts scraper u a n = (None, replicate n (Get u)).
Proof.
  revert a. induction n as [|n IH]; intros a H; [done|].
  destruct (H 0%nat) as (code & body & E & Hc); [lia|].
  replace (a + 0)%nat with a in E by lia.
  cbn [fetch_attempts]. rewrite E.
  destruct (Z.eqb_spec code 200) as [|_]; [done|].
  rewrite IH; [done|]. intros k Hk.
  replace (S a + k)%nat with (a + S k)%nat by lia. apply H. lia.
Qed.

(** C4.  [fetch_html] on a server that answers every request with a status
    other than 200: as many requests as [retries], one after the other with
    no wait between them, and the failure value. *)
Theorem fetch_html_status_no_backoff (scraper : nat → response)
    (u : pystr) (retries : nat) :
  (∀ k, (k < retries)%nat →
        ∃ code body, scraper k = Response code body ∧ code ≠ 200) →
  fetch_html scraper u retries = (None, replicate retries (Get u)) ∧
  Forall (λ e, is_sleep e = false) (snd (fetch_html scraper u retries)).
Proof.
  intros H. unfold fetch_html.
  rewrite fetch_attempts_all_status by done. split; [done|].
  simpl. apply Forall_replicate. done.
Qed.

Lemma fetch_html_status_no_backoff_witness :
  fetch_html (λ _, Response 503 []) (url vps) 3
  = (None, [Get (url vps); Get (url vps); Get (url vps)]) ∧
  Forall (λ e, is_sleep e = false)
    (snd (fetch_html (λ _, Response 503 []) (url vps) 3)).
Proof.
  apply (fetch_html_status_no_backoff (λ _, Response 503 []) (url vps) 3).
  intros k _. exists 503, []. split; [reflexivity|discriminate].
Defined.

(** The same with a client that raises every time: a wait of 2 after each
    attempt. *)
Lemma fetch_html_raised_backoff (u : pystr) :
  fetch_html (λ _, GetRaised) u 3
  = (None, [Get u; Sleep 2; Get u; Sleep 2; Get u; Sleep 2]).
Proof. reflexivity. Qed.

(** * The notifier *)

Lemma notify_send bot cfg m s q mid :
  gt0 q = true →
  snd (notify bot cfg m s q mid) = [] ∨
  ∃ chat message,
    compose m s q = Some message ∧ telegram_chat_id cfg = Some chat ∧
    snd (notify bot cfg m s q mid) = [SendMessage chat message].
Proof.
  intros Hq. unfold notify.
  destruct (compose m s q) as [message|]; [|by left]. rewrite Hq.
  destruct (telegram_chat_id cfg) as [chat|]; [|by left].
  right. exists chat, message. by destruct (send_message bot).
Qed.

Lemma notify_edit bot cfg m s q mid :
  gt0 q = false →
  fst (notify bot cfg m s q mid) = None ∧
  (snd (notify bot cfg m s q mid) = [] ∨
   ∃ chat message id,
     compose m s q = Some message ∧ telegram_chat_id cfg = Some chat ∧
     mid = Some id ∧ id ≠ 0 ∧
     snd (notify bot cfg m s q mid)
     = [EditMessageText chat id message]).
Proof.
  intros Hq. unfold notify.
  destruct (compose m s q) as [message|]; [|by split; [|left]]. rewrite Hq.
  destruct mid as [id|]; [|by split; [|left]].
  destruct (Z.eqb_spec id 0) as [|Hid]; [by split; [|left]|].
  destruct (telegram_chat_id cfg) as [chat|]; [|by split; [|left]].
  destruct (edit_message_text bot); (split; [done|]); right;
    by exists chat, message, id.
Qed.

Lemma eq0_not_gt0 q : eq0 q = true → gt0 q = false.
Proof. destruct q as [n|]; simpl; [|done]. lia. Qed.

(** * The poll loop *)

Lemma status_of_set n u b ms n' u' :
  status_of (set_status n u b ms) n' u'
  = if decide (n = n' ∧ u = u') then b else status_of ms n' u'.
Proof.
  unfold status_of, set_status.
  destruct (decide (n = n')) as [<-|Hn].
  - rewrite lookup_insert_eq. simpl.
    destruct (decide (u = u')) as [<-|Hu].
    + rewrite lookup_insert_eq. simpl. by rewrite decide_True.
    + rewrite lookup_insert_ne by done.
      rewrite decide_False by tauto.
      destruct (ms !! n) as [t|]; simpl; [done|]. by rewrite lookup_empty.
  - rewrite lookup_insert_ne by done. by rewrite decide_False by tauto.
Qed.

Section LoopFacts.

Context (U : unicode) (get_text : pystr → option pystr).

Lemma fetch_trace_quiet j :
  Forall (λ e, is_notifier e = false) (fetch_trace U get_text j).
Proof.
  unfold fetch_trace, check_stock, fetch_html.
  pose proof (fetch_attempts_quiet (scraper (j_world j)) (url (j_stock j))
                0 3) as H.
  destruct (fetch_attempts _ _ _ _) as [[html|] tr]; done.
Qed.

(** The body of the loop, by the quantity read and the entry of the
    target. *)
Lemma loop_body_eq j st :
  loop_body U get_text (j_config j) (j_merchant j) (j_stock j) (j_world j) st
  = match quantity_of U get_text j with
    | None => (Return st, fetch_trace U get_text j)
    | Some q =>
        if gt0 q && negb (previous_status st (name (j_merchant j))
                            (url (j_stock j)))
        then
          if bot_raises (j_config j) then (Raise, fetch_trace U get_text j)
          else
            (Return
               {| merchant_status :=
                    set_status (name (j_merchant j)) (url (j_stock j)) true
                      (merchant_status st);
                  message_ids :=
                    <[url (j_stock j) :=
                        fst (notify (bot (j_world j)) (j_config j)
                               (j_merchant j) (j_stock j) q None)]>
                      (message_ids st) |},
             fetch_trace U get_text j
             ++ snd (notify (bot (j_world j)) (j_config j) (j_merchant j)
                       (j_stock j) q None))
        else if eq0 q && previous_status st (name (j_merchant j))
                           (url (j_stock j))
        then
          if bot_raises (j_config j) then (Raise, fetch_trace U get_text j)
          else
            (Return
               {| merchant_status :=
                    set_status (name (j_merchant j)) (url (j_stock j)) false
                      (merchant_status st);
                  message_ids := message_ids st |},
             fetch_trace U get_text j
             ++ snd (notify (bot (j_world j)) (j_config j) (j_merchant j)
                       (j_stock j) q
                       (message_ids st !! url (j_stock j) ≫= id)))
        else (Return st, fetch_trace U get_text j)
    end.
Proof.
  unfold loop_body, quantity_of, fetch_trace, send_notification.
  destruct (check_stock _ _ _ _ _) as [[q|] tr]; simpl; [|done].
  destruct (gt0 q && negb _).
  - destruct (bot_raises (j_config j)); [by rewrite app_nil_r|].
    by destruct (notify _ _ _ _ _ None).
  - destruct (eq0 q && _); [|done].
    destruct (bot_raises (j_config j)); [by rewrite app_nil_r|].
    by destruct (notify _ _ _ _ _ (_ ≫= _)).
Qed.

(** A visit raises exactly when a notification is due and the constructor
    of the client raises. *)
Lemma job_raises_eq j st :
  job_raises U get_text j st
  = due U get_text j st && bot_raises (j_config j).
Proof.
  unfold job_raises, visit_raises, due. rewrite loop_body_eq.
  destruct (quantity_of U get_text j) as [q|]; [|done].
  destruct (gt0 q && negb _); simpl.
  - by destruct (bot_raises (j_config j)).
  - destruct (eq0 q && _); [|done]. by destruct (bot_raises (j_config j)).
Qed.

(** Every visit goes one of the five ways. *)
Lemma run_job_step j st :
  step U get_text j st (fst (run_job U get_text j st))
    (snd (run_job U get_text j st)).
Proof.
  unfold run_job, visit. rewrite loop_body_eq.
  destruct (quantity_of U get_text j) as [q|] eqn:Hq;
    [|by apply step_skip].
  destruct (gt0 q && negb _) eqn:E1.
  - destruct (bot_raises (j_config j)) eqn:Hb; simpl.
    + apply step_raise; [|done]. unfold due. by rewrite Hq, E1.
    + apply andb_prop in E1 as [Hgt Hp]. apply negb_true_iff in Hp.
      by apply step_send.
  - destruct (eq0 q && _) eqn:E2; [|by eapply step_same].
    destruct (bot_raises (j_config j)) eqn:Hb; simpl.
    + apply step_raise; [|done]. unfold due. by rewrite Hq, E1, E2.
    + apply andb_prop in E2 as [Heq Hp]. by apply step_edit.
Qed.

(** A visit that raises leaves the tables as they are and has made the
    calls of its check only. *)
Lemma job_raises_run_job j st :
  job_raises U get_text j st = true →
  run_job U get_text j st = (st, fetch_trace U get_text j).
Proof.
  rewrite job_raises_eq. intros [Hd Hb]%andb_prop.
  unfold run_job, visit. rewrite loop_body_eq. unfold due in Hd.
  destruct (quantity_of U get_text j) as [q|]; [|done].
  destruct (gt0 q && negb _); [by rewrite Hb|].
  destruct (eq0 q && _); [by rewrite Hb|done].
Qed.

Lemma is_send_notifier e : is_send e = true → is_notifier e = true.
Proof. by destruct e. Qed.

Lemma is_edit_notifier e : is_edit e = true → is_notifier e = true.
Proof. by destruct e. Qed.

Lemma quiet_no_notifier tr e :
  Forall (λ e, is_notifier e = false) tr → e ∈ tr → is_notifier e = true →
  False.
Proof.
  intros H He Hn. rewrite Forall_forall in H. apply H in He. congruence.
Qed.

Lemma notifier_calls_quiet tr :
  Forall (λ e, is_notifier e = false) tr ↔ notifier_calls tr = [].
Proof.
  unfold notifier_calls. induction tr as [|e tr IH].
  - split; [done|constructor].
  - destruct (is_notifier e) eqn:E.
    + rewrite filter_cons_True by done. split; [|done].
      intros H. inversion H; subst. congruence.
    + rewrite filter_cons_False by congruence. rewrite <- IH. split.
      * intros H. by inversion H.
      * intros H. by constructor.
Qed.

Lemma notifier_calls_app a b :
  notifier_calls (a ++ b) = notifier_calls a ++ notifier_calls b.
Proof. apply filter_app. Qed.

Lemma notifier_calls_fetch j b :
  notifier_calls (fetch_trace U get_text j ++ b) = notifier_calls b.
Proof.
  rewrite notifier_calls_app.
  by rewrite (proj1 (notifier_calls_quiet _) (fetch_trace_quiet j)).
Qed.

(** C2.  In any state that a sequence of visits leads to, a visit calls
    [send_message] only when it finds a positive quantity while the table
    says out of stock, and then the table says in stock; it calls
    [edit_message_text] only when it finds quantity 0 while the table says in
    stock, and then the table says out of stock; a visit that leaves the
    entry of the target as it was calls the chat API not at all. *)
Theorem notify_only_on_transition (js : list job) (st0 : state) (j : job) :
  let st := fst (run U get_text js st0) in
  let st' := fst (run_job U get_text j st) in
  let tr := snd (run_job U get_text j st) in
  let n := name (j_merchant j) in
  let u := url (j_stock j) in
  (∀ e, e ∈ tr → is_send e = true →
        comes_in U get_text j st ∧ previous_status st' n u = true) ∧
  (∀ e, e ∈ tr → is_edit e = true →
        goes_out U get_text j st ∧ previous_status st' n u = false) ∧
  (previous_status st' n u = previous_status st n u →
   notifier_calls tr = []).
Proof.
  cbv zeta. generalize (fst (run U get_text js st0)). intros st.
  pose proof (run_job_step j st) as Hstep. revert Hstep.
  generalize (fst (run_job U get_text j st)) (snd (run_job U get_text j st)).
  intros st' tr Hstep.
  destruct Hstep as [Hq|q Hq Hgt Hp Hb|q Hq Heq Hp Hb|q Hq H1 H2|Hdue Hb].
  - pose proof (fetch_trace_quiet j) as Hquiet. split; [|split].
    + intros e He Hs. exfalso.
      eauto using quiet_no_notifier, is_send_notifier.
    + intros e He Hs. exfalso.
      eauto using quiet_no_notifier, is_edit_notifier.
    + intros _. by apply notifier_calls_quiet.
  - unfold previous_status in *. simpl. rewrite status_of_set.
    rewrite decide_True by done. split; [|split].
    + intros e He Hs. split; [|done]. by exists q.
    + intros e He Hs. exfalso. apply elem_of_app in He as [He|He].
      * eauto using quiet_no_notifier, is_edit_notifier, fetch_trace_quiet.
      * destruct (notify_send (bot (j_world j)) (j_config j)
                    (j_merchant j) (j_stock j) q None Hgt)
          as [E|(chat & message & _ & _ & E)]; rewrite E in He.
        -- by apply elem_of_nil in He.
        -- apply list_elem_of_singleton in He. by subst.
    + congruence.
  - unfold previous_status in *. simpl. rewrite status_of_set.
    rewrite decide_True by done. split; [|split].
    + intros e He Hs. exfalso. apply elem_of_app in He as [He|He].
      * eauto using quiet_no_notifier, is_send_notifier, fetch_trace_quiet.
      * destruct (notify_edit (bot (j_world j)) (j_config j)
                    (j_merchant j) (j_stock j) q
                    (message_ids st !! url (j_stock j) ≫= id)
                    (eq0_not_gt0 q Heq))
          as [_ [E|(chat & message & i & _ & _ & _ & _ & E)]];
          rewrite E in He.
        -- by apply elem_of_nil in He.
        -- apply list_elem_of_singleton in He. by subst.
    + intros e He Hs. split; [|done]. by exists q.
    + congruence.
  - pose proof (fetch_trace_quiet j) as Hquiet. split; [|split].
    + intros e He Hs. exfalso.
      eauto using quiet_no_notifier, is_send_notifier.
    + intros e He Hs. exfalso.
      eauto using quiet_no_notifier, is_edit_notifier.
    + intros _. by apply notifier_calls_quiet.
  - pose proof (fetch_trace_quiet j) as Hquiet. split; [|split].
    + intros e He Hs. exfalso.
      eauto using quiet_no_notifier, is_send_notifier.
    + intros e He Hs. exfalso.
      eauto using quiet_no_notifier, is_edit_notifier.
    + intros _. by apply notifier_calls_quiet.
Qed.

(** X22.  A second visit that reads the same quantity as the visit before
    it, which has returned, calls the chat API not at all. *)
Lemma repeated_quantity_is_silent (st : state) (j j' : job) :
  job_raises U get_text j st = false →
  name (j_merchant j') = name (j_merchant j) →
  url (j_stock j') = url (j_stock j) →
  quantity_of U get_text j' = quantity_of U get_text j →
  notifier_calls
    (snd (run_job U get_text j' (fst (run_job U get_text j st)))) = [].
Proof.
  intros Hnr Hn Hu Hq.
  pose proof (run_job_step j st) as Hstep. revert Hstep.
  generalize (fst (run_job U get_text j st)) (snd (run_job U get_text j st)).
  intros st1 tr1 Hstep.
  pose proof (run_job_step j' st1) as Hstep'. revert Hstep'.
  generalize (fst (run_job U get_text j' st1))
             (snd (run_job U get_text j' st1)).
  intros st2 tr2 Hstep'.
  assert (notifier_calls (fetch_trace U get_text j') = []) as Hquiet
    by apply notifier_calls_quiet, fetch_trace_quiet.
  destruct Hstep as [Hq1|q Hq1 Hgt Hp Hb|q Hq1 Heq Hp Hb|q Hq1 H1 H2|Hd Hb];
    [| | | |by rewrite job_raises_eq, Hd, Hb in Hnr];
    (destruct Hstep'
       as [Hq'|q' Hq' Hgt' Hp' Hb'|q' Hq' Heq' Hp' Hb'|q' Hq' H1' H2'
           |Hd' Hb']; [done| | |done|done]);
    exfalso; rewrite Hn, Hu, Hq in *;
    rewrite Hq1 in Hq'; try done; injection Hq' as ->;
    unfold previous_status in *; simpl in *;
    rewrite ?status_of_set, ?decide_True in * by done; try congruence.
  all: try (match goal with
            | H : eq0 _ = true |- _ => pose proof (eq0_not_gt0 _ H)
            end; congruence).
  all: repeat match goal with
         | H : _ && _ = false |- _ => apply andb_false_iff in H as [H|H]
         | H : negb _ = false |- _ => apply negb_false_iff in H
         end; congruence.
Qed.

(** C5.  When the three attempts of the fetch all fail, or the page is
    fetched and [parse_stock] fails on it, the visit returns the state it
    was given, so the entry of the target and the message identifier of its
    URL are as before, and it calls the chat API not at all. *)
Theorem failure_skips_target (cfg : config) (m : merchant) (s : stock)
    (w : world) (st : state) :
  (∀ k, (k < 3)%nat → failed (scraper w k) = true) ∨
  (∃ html, fst (fetch_html (scraper w) (url s) 3) = Some html ∧
           parse_stock U get_text html
             (default (JStr (py "缺货")) (out_of_stock_text m)) = None) →
  fst (visit U get_text cfg m s w st) = st ∧
  previous_status (fst (visit U get_text cfg m s w st)) (name m) (url s)
  = previous_status st (name m) (url s) ∧
  message_ids (fst (visit U get_text cfg m s w st)) !! url s
  = message_ids st !! url s ∧
  notifier_calls (snd (visit U get_text cfg m s w st)) = [] ∧
  fst (loop_body U get_text cfg m s w st) = Return st.
Proof.
  intros H.
  set (j := {| j_config := cfg; j_merchant := m; j_stock := s;
               j_world := w |}).
  assert (quantity_of U get_text j = None) as Hq.
  { unfold quantity_of, check_stock. simpl. destruct H as [H|(html & E & Hp)].
    - apply (fetch_attempts_None (scraper w) (url s) 0 3) in H.
      unfold fetch_html. destruct (fetch_attempts _ _ _ _) as [r tr].
      simpl in H. by subst.
    - destruct (fetch_html _ _ _) as [r tr]. simpl in E. by subst. }
  assert (fst (loop_body U get_text cfg m s w st) = Return st) as Hret.
  { change (loop_body U get_text cfg m s w st)
      with (loop_body U get_text (j_config j) (j_merchant j) (j_stock j)
              (j_world j) st).
    by rewrite loop_body_eq, Hq. }
  change (visit U get_text cfg m s w st) with (run_job U get_text j st).
  pose proof (run_job_step j st) as Hstep. revert Hstep.
  generalize (fst (run_job U get_text j st)) (snd (run_job U get_text j st)).
  intros st' tr Hstep.
  destruct Hstep as [_|q Hq' _ _ _|q Hq' _ _ _|q Hq' _ _|Hd _];
    try congruence.
  - repeat split; [|done]. apply notifier_calls_quiet, fetch_trace_quiet.
  - unfold due in Hd. by rewrite Hq in Hd.
Qed.

End LoopFacts.

(** * Runs *)

Section RunFacts.

Context (U : unicode) (get_text : pystr → option pystr).

Lemma run_eq j js st :
  run U get_text (j :: js) st
  = if job_raises U get_text j st then (st, fetch_trace U get_text j)
    else (fst (run U get_text js (fst (run_job U get_text j st))),
          snd (run_job U get_text j st)
          ++ snd (run U get_text js (fst (run_job U get_text j st)))).
Proof.
  simpl. destruct (job_raises U get_text j st) eqn:E.
  - by rewrite job_raises_run_job.
  - destruct (run_job U get_text j st) as [st1 t1]. simpl.
    by destruct (run U get_text js st1).
Qed.

Lemma run_cons j js st :
  job_raises U get_text j st = false →
  fst (run U get_text (j :: js) st)
  = fst (run U get_text js (fst (run_job U get_text j st))) ∧
  snd (run U get_text (j :: js) st)
  = snd (run_job U get_text j st)
    ++ snd (run U get_text js (fst (run_job U get_text j st))).
Proof. intros H. by rewrite run_eq, H. Qed.

Lemma run_cons_raise j js st :
  job_raises U get_text j st = true →
  run U get_text (j :: js) st = (st, fetch_trace U get_text j).
Proof. intros H. by rewrite run_eq, H. Qed.

Lemma run_raises_app js1 js2 st :
  run_raises U get_text (js1 ++ js2) st
  = run_raises U get_text js1 st
    || run_raises U get_text js2 (fst (run U get_text js1 st)).
Proof.
  revert st. induction js1 as [|j js1 IH]; intros st; [done|].
  change ((j :: js1) ++ js2) with (j :: (js1 ++ js2)).
  cbn [run_raises]. rewrite run_eq.
  destruct (job_raises U get_text j st); [done|]. simpl. apply IH.
Qed.

Lemma run_app_raise js1 js2 st :
  run_raises U get_text js1 st = true →
  run U get_text (js1 ++ js2) st = run U get_text js1 st.
Proof.
  revert st. induction js1 as [|j js1 IH]; intros st H; [done|].
  change ((j :: js1) ++ js2) with (j :: (js1 ++ js2)).
  rewrite !run_eq. cbn [run_raises] in H.
  destruct (job_raises U get_text j st); [done|]. simpl in H.
  by rewrite IH.
Qed.

Lemma run_app js1 js2 st :
  run_raises U get_text js1 st = false →
  fst (run U get_text (js1 ++ js2) st)
  = fst (run U get_text js2 (fst (run U get_text js1 st))) ∧
  snd (run U get_text (js1 ++ js2) st)
  = snd (run U get_text js1 st)
    ++ snd (run U get_text js2 (fst (run U get_text js1 st))).
Proof.
  revert st. induction js1 as [|j js1 IH]; intros st H; [done|].
  change ((j :: js1) ++ js2) with (j :: (js1 ++ js2)).
  cbn [run_raises] in H. apply orb_false_iff in H as [Hj H].
  rewrite !run_eq, Hj. cbn [fst snd].
  destruct (IH (fst (run_job U get_text j st)) H) as [-> ->].
  by rewrite app_assoc.
Qed.

(** The send branch is the branch of a target that comes into stock. *)
Lemma sent_id_Some j st r :
  sent_id U get_text j st = Some r ↔
  ∃ q, quantity_of U get_text j = Some q ∧ gt0 q = true ∧
       previous_status st (name (j_merchant j)) (url (j_stock j)) = false ∧
       bot_raises (j_config j) = false ∧
       r = fst (notify (bot (j_world j)) (j_config j)
                  (j_merchant j) (j_stock j) q None).
Proof.
  unfold sent_id, send_notification.
  destruct (quantity_of U get_text j) as [q|].
  - destruct (gt0 q) eqn:Hq; simpl.
    + destruct (previous_status _ _ _) eqn:Hp; simpl.
      * split; [done|]. by intros (q' & [= <-] & _ & ? & _).
      * destruct (bot_raises (j_config j)) eqn:Hb; simpl.
        -- split; [done|]. by intros (q' & _ & _ & _ & ? & _).
        -- destruct (notify _ _ _ _ _ None) as [r' tr] eqn:E. simpl. split.
           ++ intros [= <-]. exists q. by rewrite E.
           ++ intros (q' & [= <-] & _ & _ & _ & ->). by rewrite E.
    + split; [done|]. intros (q' & [= <-] & ? & _). congruence.
  - split; [done|]. by intros (q' & ? & _).
Qed.

Lemma sent_id_None_in_stock j st :
  previous_status st (name (j_merchant j)) (url (j_stock j)) = true →
  sent_id U get_text j st = None.
Proof.
  intros Hp. unfold sent_id. rewrite Hp.
  destruct (quantity_of U get_text j) as [q|]; [|done].
  by rewrite andb_false_r.
Qed.

Lemma sent_id_None_raises j st :
  bot_raises (j_config j) = true → sent_id U get_text j st = None.
Proof.
  intros Hb. unfold sent_id, send_notification. rewrite Hb.
  destruct (quantity_of U get_text j) as [q|]; [|done].
  by destruct (gt0 q && negb _).
Qed.

(** The message identifier of a URL after a visit: what the send branch
    returned for that URL, and else what it was. *)
Lemma message_ids_after j st u :
  message_ids (fst (run_job U get_text j st)) !! u
  = match sent_id U get_text j st with
    | Some r => if decide (url (j_stock j) = u) then Some r
                else message_ids st !! u
    | None => message_ids st !! u
    end.
Proof.
  pose proof (run_job_step U get_text j st) as Hstep. revert Hstep.
  generalize (fst (run_job U get_text j st)) (snd (run_job U get_text j st)).
  intros st' tr Hstep.
  destruct Hstep as [Hq|q Hq Hgt Hp Hb|q Hq Heq Hp Hb|q Hq H1 H2|Hdue Hb].
  - unfold sent_id. by rewrite Hq.
  - rewrite (proj2 (sent_id_Some j st _)) by (exists q; eauto).
    simpl. case_decide as Hu.
    + subst u. by rewrite lookup_insert_eq.
    + by rewrite lookup_insert_ne.
  - by rewrite sent_id_None_in_stock.
  - unfold sent_id. rewrite Hq. unfold previous_status in *.
    by rewrite H1.
  - by rewrite sent_id_None_raises.
Qed.

(** The entry of a target after a visit to another URL. *)
Lemma previous_status_other_url j st n u :
  url (j_stock j) ≠ u →
  previous_status (fst (run_job U get_text j st)) n u
  = previous_status st n u.
Proof.
  intros Hu.
  pose proof (run_job_step U get_text j st) as Hstep. revert Hstep.
  generalize (fst (run_job U get_text j st)) (snd (run_job U get_text j st)).
  intros st' tr Hstep.
  destruct Hstep as [Hq|q Hq Hgt Hp Hb|q Hq Heq Hp Hb|q Hq H1 H2|Hdue Hb];
    try done;
    unfold previous_status; simpl; rewrite status_of_set;
    by rewrite decide_False by tauto.
Qed.

Lemma last_send_acc u js st r :
  is_Some (last_send U get_text u js st (Some r)).
Proof.
  revert st r. induction js as [|j js IH]; intros st r; simpl; [eauto|].
  destruct (job_raises U get_text j st); [eauto|].
  destruct (sent_id U get_text j st) as [r'|]; [|apply IH].
  case_decide; apply IH.
Qed.

(** The table of message identifiers holds, for each URL, what the latest
    send for that URL returned. *)
Lemma message_ids_last_send u js st acc :
  match acc with
  | Some r => message_ids st !! u = Some r
  | None => True
  end →
  match last_send U get_text u js st acc with
  | Some r => message_ids (fst (run U get_text js st)) !! u = Some r
  | None =>
      message_ids (fst (run U get_text js st)) !! u = message_ids st !! u
  end.
Proof.
  revert st acc. induction js as [|j js IH]; intros st acc Hacc.
  - simpl. by destruct acc.
  - rewrite run_eq. cbn [last_send].
    destruct (job_raises U get_text j st) eqn:Hraise; [by destruct acc|].
    cbn [fst].
    pose proof (message_ids_after j st u) as Hafter.
    set (acc' := match sent_id U get_text j st with
                 | Some r => if decide (url (j_stock j) = u) then Some r
                             else acc
                 | None => acc
                 end).
    assert (match acc' with
            | Some r => message_ids (fst (run_job U get_text j st)) !! u
                        = Some r
            | None => message_ids (fst (run_job U get_text j st)) !! u
                      = message_ids st !! u
            end) as Hacc'.
    { subst acc'. rewrite Hafter.
      destruct (sent_id U get_text j st) as [r|].
      - case_decide; [done|]. destruct acc as [r'|]; by rewrite ?Hacc.
      - destruct acc as [r'|]; by rewrite ?Hacc. }
    specialize (IH (fst (run_job U get_text j st)) acc').
    destruct acc' as [r|] eqn:E.
    + specialize (IH Hacc').
      pose proof (last_send_acc u js (fst (run_job U get_text j st)) r)
        as [r' Hr']. by rewrite Hr' in *.
    + specialize (IH I).
      destruct (last_send U get_text u js _ None); [done|congruence].
Qed.

(** A target that the table says is in stock has had a send for its URL. *)
Lemma in_stock_has_send u js st acc :
  (∀ n, previous_status st n u = true → is_Some acc) →
  ∀ n, previous_status (fst (run U get_text js st)) n u = true →
       is_Some (last_send U get_text u js st acc).
Proof.
  revert st acc. induction js as [|j js IH]; intros st acc Hacc n Hn.
  - simpl in *. eauto.
  - rewrite run_eq in Hn. cbn [last_send].
    destruct (job_raises U get_text j st) eqn:Hraise; [eauto|].
    cbn [fst] in Hn.
    eapply IH; [|exact Hn]. clear n Hn. intros n Hn.
    destruct (sent_id U get_text j st) as [r|] eqn:Es.
    + case_decide as Hu; [eauto|].
      rewrite previous_status_other_url in Hn by done. eauto.
    + pose proof (run_job_step U get_text j st) as Hstep. revert Hstep Hn.
      generalize (fst (run_job U get_text j st))
                 (snd (run_job U get_text j st)).
      intros st' tr Hstep Hn.
      destruct Hstep as [Hq|q Hq Hgt Hp Hb|q Hq Heq Hp Hb|q Hq H1 H2|Hdue Hb];
        eauto.
      * assert (is_Some (sent_id U get_text j st)) as [? ?]; [|congruence].
        exists (fst (notify (bot (j_world j)) (j_config j)
                       (j_merchant j) (j_stock j) q None)).
        apply sent_id_Some. by exists q.
      * unfold previous_status in Hn. simpl in Hn.
        rewrite status_of_set in Hn. case_decide; [done|]. eauto.
Qed.

(** Visits that leave the state alone when they are to the URL [u] keep the
    entries and the message identifier of [u]. *)
Lemma untouched_keeps u js st :
  untouched U get_text u js st →
  message_ids (fst (run U get_text js st)) !! u = message_ids st !! u ∧
  ∀ n, previous_status (fst (run U get_text js st)) n u
       = previous_status st n u.
Proof.
  revert st. induction js as [|j js IH]; intros st H; [done|].
  rewrite run_eq. destruct H as [Hj H].
  destruct (job_raises U get_text j st) eqn:Hraise; [done|]. cbn [fst].
  destruct (IH _ H) as [-> Hs]. clear IH.
  destruct (decide (url (j_stock j) = u)) as [Hu|Hu].
  - specialize (Hj Hu). rewrite Hj in *. split; [done|]. intros n. apply Hs.
  - split.
    + rewrite message_ids_after.
      destruct (sent_id U get_text j st); [|done]. by rewrite decide_False.
    + intros n. by rewrite Hs, previous_status_other_url.
Qed.

End RunFacts.

(** * Transitions *)

Lemma notify_edit_exact bot cfg m s q id message chat :
  gt0 q = false → id ≠ 0 → compose m s q = Some message →
  telegram_chat_id cfg = Some chat →
  snd (notify bot cfg m s q (Some id))
  = [EditMessageText chat id message].
Proof.
  intros Hq Hid Hc Hchat. unfold notify.
  rewrite Hc, Hq, Hchat. destruct (Z.eqb_spec id 0); [done|].
  by destruct (edit_message_text bot).
Qed.

Lemma notify_raised bot cfg m s q mid :
  send_message bot = SendRaised →
  fst (notify bot cfg m s q mid) = None.
Proof.
  intros Hs. unfold notify. rewrite Hs.
  destruct (compose m s q); [|done].
  destruct (gt0 q).
  - by destruct (telegram_chat_id cfg).
  - destruct mid as [id|]; [|done]. destruct (id =? 0); [done|].
    destruct (telegram_chat_id cfg); [|done].
    by destruct (edit_message_text bot).
Qed.

Lemma previous_status_initial n u : previous_status initial n u = false.
Proof. unfold previous_status, status_of. simpl. by rewrite lookup_empty. Qed.

Section Transitions.

Context (U : unicode) (get_text : pystr → option pystr).

(** The visit of a target that goes out of stock. *)
Lemma goes_out_step j st q :
  quantity_of U get_text j = Some q → eq0 q = true →
  previous_status st (name (j_merchant j)) (url (j_stock j)) = true →
  (bot_raises (j_config j) = false →
   previous_status (fst (run_job U get_text j st)) (name (j_merchant j))
     (url (j_stock j)) = false) ∧
  snd (run_job U get_text j st)
  = fetch_trace U get_text j
    ++ (if bot_raises (j_config j) then []
        else snd (notify (bot (j_world j)) (j_config j) (j_merchant j)
                    (j_stock j) q
                    (message_ids st !! url (j_stock j) ≫= id))).
Proof.
  intros Hq Heq Hp.
  pose proof (run_job_step U get_text j st) as Hstep. revert Hstep.
  generalize (fst (run_job U get_text j st)) (snd (run_job U get_text j st)).
  intros st' tr Hstep.
  destruct Hstep
    as [Hq'|q' Hq' Hgt' Hp' Hb|q' Hq' Heq' Hp' Hb|q' Hq' H1 H2|Hd Hb];
    try congruence.
  - assert (q' = q) as -> by congruence. rewrite Hb. split; [|done].
    intros _. unfold previous_status. simpl. rewrite status_of_set.
    by rewrite decide_True.
  - assert (q' = q) as -> by congruence. rewrite Heq, Hp in H2. done.
  - rewrite Hb, app_nil_r. by split.
Qed.

(** C3, as the code has it.  On a visit on which a target goes out of
    stock, in a run from the start of the process: no message is sent; there
    has been a send for the URL of the target, and an edit, if one is made,
    is of the identifier that the latest such send returned; when that send
    returned an identifier other than 0, the message can be composed, the
    chat identifier is configured and the constructor of the client returns,
    the edit of that identifier is the one call of the chat API; when that
    send returned no identifier, the chat API is not called; and when the
    constructor of the client returns, the target is marked out of stock. *)
Theorem deplete_edits_stored_id (js : list job) (j : job) :
  goes_out U get_text j (fst (run U get_text js initial)) →
  let st := fst (run U get_text js initial) in
  let tr := snd (run_job U get_text j st) in
  (∀ e, e ∈ tr → is_send e = false) ∧
  (bot_raises (j_config j) = false →
   previous_status (fst (run_job U get_text j st)) (name (j_merchant j))
     (url (j_stock j)) = false) ∧
  ∃ r, last_send U get_text (url (j_stock j)) js initial None = Some r ∧
       (∀ chat id text, EditMessageText chat id text ∈ tr → r = Some id) ∧
       (r = None → notifier_calls tr = []) ∧
       (∀ id q message chat,
          r = Some id → id ≠ 0 → quantity_of U get_text j = Some q →
          compose (j_merchant j) (j_stock j) q = Some message →
          telegram_chat_id (j_config j) = Some chat →
          bot_raises (j_config j) = false →
          notifier_calls tr = [EditMessageText chat id message]).
Proof.
  intros (q & Hq & Heq & Hp). cbv zeta.
  assert (is_Some (last_send U get_text (url (j_stock j)) js initial None))
    as [r Hr].
  { eapply in_stock_has_send; [|exact Hp].
    intros n. by rewrite previous_status_initial. }
  pose proof (message_ids_last_send U get_text (url (j_stock j)) js initial
                None I) as Hids.
  rewrite Hr in Hids. revert Hp Hids.
  generalize (fst (run U get_text js initial)). intros st Hp Hids.
  destruct (goes_out_step j st q Hq Heq Hp) as [Hafter ->].
  rewrite Hids. simpl.
  pose proof (eq0_not_gt0 q Heq) as Hgt.
  pose proof (fetch_trace_quiet U get_text j) as Hquiet.
  pose proof (notify_edit (bot (j_world j)) (j_config j)
                (j_merchant j) (j_stock j) q r Hgt) as [_ Hev].
  split; [|split; [done|]].
  - intros e He. apply elem_of_app in He as [He|He].
    + destruct (is_send e) eqn:Es; [|done]. exfalso.
      eauto using quiet_no_notifier, is_send_notifier.
    + destruct (bot_raises (j_config j)); [by apply elem_of_nil in He|].
      destruct Hev as [E|(chat & message & id & _ & _ & _ & _ & E)];
        rewrite E in He.
      * by apply elem_of_nil in He.
      * apply list_elem_of_singleton in He. by subst.
  - exists r. split; [done|]. split; [|split].
    + intros chat id text He. apply elem_of_app in He as [He|He].
      * exfalso. eapply quiet_no_notifier; eauto.
      * destruct (bot_raises (j_config j)); [by apply elem_of_nil in He|].
        destruct Hev as [E|(chat' & message & id' & _ & _ & -> & _ & E)];
          rewrite E in He.
        -- by apply elem_of_nil in He.
        -- apply list_elem_of_singleton in He. by injection He as _ -> _.
    + intros ->. rewrite notifier_calls_fetch.
      destruct (bot_raises (j_config j)); [done|].
      unfold notify.
      destruct (compose _ _ _); [|done]. by rewrite Hgt.
    + intros id q' message chat -> Hid Hq' Hc Hchat Hb.
      assert (q' = q) as -> by congruence.
      rewrite notifier_calls_fetch, Hb.
      by rewrite (notify_edit_exact _ _ _ _ _ id message chat).
Qed.

(** C10.  When the constructor of the client returns and [send_message]
    raises on the visit on which a target comes into stock,
    [send_notification] returns [None]; the visit marks the target in stock
    all the same and stores [None] as the message identifier of the URL; and
    on the next visit to change anything for that URL, one that finds the
    target out of stock, the chat API is not called, and the target is
    marked out of stock when the constructor returns there too. *)
Theorem failed_send_leaves_no_handle (cfg : config) (m : merchant)
    (s : stock) (w : world) (st : state) (js : list job) (j' : job)
    (q q' : quantity) :
  quantity_of U get_text
    {| j_config := cfg; j_merchant := m; j_stock := s; j_world := w |}
  = Some q →
  gt0 q = true →
  previous_status st (name m) (url s) = false →
  bot_raises cfg = false →
  send_message (bot w) = SendRaised →
  untouched U get_text (url s) js (fst (visit U get_text cfg m s w st)) →
  name (j_merchant j') = name m →
  url (j_stock j') = url s →
  quantity_of U get_text j' = Some q' →
  eq0 q' = true →
  let st1 := fst (visit U get_text cfg m s w st) in
  let st2 := fst (run U get_text js st1) in
  fst (send_notification (bot w) cfg m s q None) = Return None ∧
  previous_status st1 (name m) (url s) = true ∧
  message_ids st1 !! url s = Some None ∧
  goes_out U get_text j' st2 ∧
  notifier_calls (snd (run_job U get_text j' st2)) = [] ∧
  (bot_raises (j_config j') = false →
   previous_status (fst (run_job U get_text j' st2)) (name m) (url s)
   = false).
Proof.
  intros Hq Hgt Hp Hbot Hs Hun Hn Hu Hq' Heq'. cbv zeta.
  set (j := {| j_config := cfg; j_merchant := m; j_stock := s;
               j_world := w |}) in *.
  change (visit U get_text cfg m s w st) with (run_job U get_text j st) in *.
  pose proof (notify_raised (bot w) cfg m s q None Hs) as Hnone.
  assert (fst (send_notification (bot w) cfg m s q None) = Return None)
    as Hret.
  { unfold send_notification. rewrite Hbot.
    destruct (notify (bot w) cfg m s q None) as [r tr]. simpl in *.
    by subst. }
  assert (previous_status (fst (run_job U get_text j st)) (name m) (url s)
          = true ∧
          message_ids (fst (run_job U get_text j st)) !! url s = Some None)
    as [Hp1 Hid1].
  { split.
    - pose proof (run_job_step U get_text j st) as Hstep. revert Hstep.
      generalize (fst (run_job U get_text j st))
                 (snd (run_job U get_text j st)).
      intros st' tr Hstep.
      destruct Hstep
        as [Hq1|q1 Hq1 Hgt1 Hp1 Hb1|q1 Hq1 Heq1 Hp1 Hb1|q1 Hq1 H1 H2
            |Hd1 Hb1];
        simpl in *; try congruence.
      + unfold previous_status. simpl. rewrite status_of_set.
        by rewrite decide_True.
      + assert (q1 = q) as -> by congruence.
        subst j. simpl in H1. rewrite Hgt, Hp in H1. done.
    - rewrite message_ids_after.
      rewrite (proj2 (sent_id_Some U get_text j st _))
        by (exists q; eauto).
      simpl. rewrite decide_True by done. by rewrite Hnone. }
  destruct (untouched_keeps U get_text (url s) js _ Hun) as [Hid2 Hp2].
  revert Hid2 Hp2.
  generalize (fst (run U get_text js (fst (run_job U get_text j st)))).
  intros st2 Hid2 Hp2.
  assert (previous_status st2 (name (j_merchant j')) (url (j_stock j'))
          = true) as Hin by (by rewrite Hn, Hu, Hp2).
  destruct (goes_out_step j' st2 q' Hq' Heq' Hin) as [Hout ->].
  rewrite Hn, Hu in Hout.
  repeat split; try done.
  - by exists q'.
  - rewrite notifier_calls_fetch. rewrite Hu, Hid2, Hid1. simpl.
    destruct (bot_raises (j_config j')); [done|].
    unfold notify. destruct (compose _ _ _); [|done].
    by rewrite (eq0_not_gt0 q' Heq').
Qed.

End Transitions.

(** * The loops as runs *)

Lemma fetch_attempts_get scraper u a n :
  Get u ∈ snd (fetch_attempts scraper u a (S n)).
Proof.
  simpl. destruct (scraper a) as [code body|].
  - destruct (code =? 200); simpl; [apply list_elem_of_here|].
    destruct (fetch_attempts scraper u (S a) n). apply list_elem_of_here.
  - destruct (fetch_attempts scraper u (S a) n). apply list_elem_of_here.
Qed.

Section Loops.

Context (U : unicode) (get_text : pystr → option pystr).

(** The body of the loop ends as its visit does. *)
Lemma loop_body_run_job j st :
  loop_body U get_text (j_config j) (j_merchant j) (j_stock j) (j_world j) st
  = (if job_raises U get_text j st then Raise
     else Return (fst (run_job U get_text j st)),
     snd (run_job U get_text j st)).
Proof.
  unfold job_raises, visit_raises, run_job, visit. rewrite loop_body_eq.
  destruct (quantity_of U get_text j) as [q|]; [|done].
  destruct (gt0 q && negb _);
    [by destruct (bot_raises (j_config j))|].
  destruct (eq0 q && _); [|done]. by destruct (bot_raises (j_config j)).
Qed.

Lemma run_result_cons j js st :
  run_result U get_text (j :: js) st
  = and_then
      (loop_body U get_text (j_config j) (j_merchant j) (j_stock j)
         (j_world j) st)
      (run_result U get_text js).
Proof.
  rewrite loop_body_run_job. unfold run_result. cbn [run_raises].
  rewrite run_eq.
  destruct (job_raises U get_text j st) eqn:E; cbn [orb and_then fst snd].
  - by rewrite (job_raises_run_job U get_text j st E).
  - done.
Qed.

Lemma run_result_app js1 js2 st :
  run_result U get_text (js1 ++ js2) st
  = and_then (run_result U get_text js1 st) (run_result U get_text js2).
Proof.
  unfold run_result. rewrite run_raises_app.
  destruct (run_raises U get_text js1 st) eqn:E; cbn [orb and_then].
  - by rewrite (run_app_raise U get_text js1 js2 st E).
  - by destruct (run_app U get_text js1 js2 st E) as [-> ->].
Qed.

Lemma for_stocks_run cfg m env i ss st :
  for_stocks U get_text cfg m env i ss st
  = run_result U get_text (stock_jobs cfg m env i ss) st.
Proof.
  revert i st. induction ss as [|s ss IH]; intros i st; [done|].
  cbn [for_stocks stock_jobs]. rewrite run_result_cons. cbn [j_config
    j_merchant j_stock j_world].
  destruct (loop_body U get_text cfg m s (env i) st) as [[st1|c|] t1];
    cbn [and_then]; [|done|done].
  by rewrite IH.
Qed.

Lemma for_merchants_run cfg env i ms st :
  for_merchants U get_text cfg env i ms st
  = run_result U get_text (merchant_jobs cfg env i ms) st.
Proof.
  revert i st. induction ms as [|m ms IH]; intros i st; [done|].
  cbn [for_merchants merchant_jobs]. rewrite run_result_app.
  rewrite for_stocks_run.
  destruct (run_result U get_text (stock_jobs _ _ _ _ _) st)
    as [[st1|c|] t1]; cbn [and_then]; [|done|done].
  by rewrite IH.
Qed.

Lemma all_loaded_cons (cfg : config) (loads : list (option config)) :
  bool_decide (Forall is_Some (Some cfg :: loads))
  = bool_decide (Forall is_Some loads).
Proof.
  apply bool_decide_ext. rewrite Forall_cons. split; [tauto|].
  intros H. split; [by eexists|done].
Qed.

(** How the loop ends: by the exception of a visit, by the exception of a
    load, or still running after the watched rounds in the state their
    visits lead to. *)
Lemma main_loop_result loads env round st :
  fst (main_loop U get_text loads env round st)
  = if run_raises U get_text (loop_jobs loads env round) st then Raise
    else if bool_decide (Forall is_Some loads)
         then Return (fst (run U get_text (loop_jobs loads env round) st))
         else Raise.
Proof.
  revert round st. induction loads as [|[cfg|] loads IH]; intros round st.
  - done.
  - cbn [main_loop loop_jobs]. unfold poll_cycle.
    rewrite for_merchants_run, all_loaded_cons, run_raises_app.
    unfold run_result.
    destruct (run_raises U get_text (merchant_jobs _ _ _ _) st) eqn:E;
      cbn [and_then orb]; [done|].
    destruct (run_app U get_text _ (loop_jobs loads env (S round)) st E)
      as [-> _].
    specialize (IH (S round)
                  (fst (run U get_text
                          (merchant_jobs cfg (env round) 0 (merchants cfg))
                          st))).
    destruct (main_loop U get_text loads env (S round) _) as [r t2].
    cbn [fst] in *. by rewrite <- IH.
  - cbn [main_loop loop_jobs run_raises fst].
    rewrite bool_decide_eq_false_2; [done|].
    intros H. apply Forall_cons in H as [[? H] _]. done.
Qed.

(** The calls of the loop are the calls of its visits and the waits between
    the rounds. *)
Lemma main_loop_filter (P : event → bool) loads env round st :
  (∀ z, P (Sleep z) = false) →
  filter (λ e, P e = true) (snd (main_loop U get_text loads env round st))
  = filter (λ e, P e = true)
      (snd (run U get_text (loop_jobs loads env round) st)).
Proof.
  intros HP. revert round st.
  induction loads as [|[cfg|] loads IH]; intros round st; [done| |done].
  cbn [main_loop loop_jobs]. unfold poll_cycle.
  rewrite for_merchants_run. unfold run_result.
  destruct (run_raises U get_text (merchant_jobs _ _ _ _) st) eqn:E;
    cbn [and_then].
  - by rewrite (run_app_raise U get_text _ _ st E).
  - destruct (run_app U get_text _ (loop_jobs loads env (S round)) st E)
      as [_ ->].
    specialize (IH (S round)
                  (fst (run U get_text
                          (merchant_jobs cfg (env round) 0 (merchants cfg))
                          st))).
    destruct (main_loop U get_text loads env (S round) _) as [r t2].
    cbn [snd] in *. rewrite !filter_app, IH.
    rewrite filter_cons_False by (by rewrite HP).
    by rewrite filter_nil, app_nil_r.
Qed.

(** The lock of [main] when the guard has taken it and the loop is over. *)
Lemma lock_released pid o :
  lock_holder o = None →
  lock_holder
    (flock_un pid default_lock_file_path
       {| can_open := can_open o;
          locks := <[default_lock_file_path := pid]> (locks o) |})
  = None.
Proof.
  intros _. unfold flock_un, lock_holder. cbn [locks].
  rewrite lookup_insert_eq, decide_True by done. cbn [locks].
  apply lookup_delete_eq.
Qed.

Lemma main_free pid o loads env :
  can_open o default_lock_file_path = true →
  lock_holder o = None →
  main U get_text pid o loads env
  = let o' := {| can_open := can_open o;
                 locks := <[default_lock_file_path := pid]> (locks o) |} in
    match main_loop U get_text loads env 0 initial with
    | (Return st, tr) => (o', Return st, tr)
    | (r, tr) => (flock_un pid default_lock_file_path o', r, tr)
    end.
Proof.
  intros Hc Ho. unfold main, acquire_lock, flock_ex_nb. rewrite Hc.
  unfold lock_holder in Ho. rewrite Ho. done.
Qed.

Lemma main_held pid o loads env :
  can_open o default_lock_file_path = true →
  is_Some (lock_holder o) →
  main U get_text pid o loads env = (o, Exit 1, []).
Proof.
  intros Hc [p Ho]. unfold main, acquire_lock, flock_ex_nb. rewrite Hc.
  unfold lock_holder in Ho. by rewrite Ho.
Qed.

Lemma main_closed pid o loads env :
  can_open o default_lock_file_path = false →
  main U get_text pid o loads env = (o, Raise, []).
Proof. intros Hc. unfold main, acquire_lock. by rewrite Hc. Qed.

(** How [main] ends and what it has called, behind a free lock. *)
Lemma main_free_result pid o loads env :
  can_open o default_lock_file_path = true →
  lock_holder o = None →
  snd (fst (main U get_text pid o loads env))
  = fst (main_loop U get_text loads env 0 initial) ∧
  snd (main U get_text pid o loads env)
  = snd (main_loop U get_text loads env 0 initial).
Proof.
  intros Hc Ho. rewrite main_free by done. cbv zeta.
  by destruct (main_loop U get_text loads env 0 initial) as [[st|c|] tr].
Qed.

(** A visit that fails to read a quantity can be left out of a run. *)
Lemma run_skip js1 j js2 st :
  quantity_of U get_text j = None →
  fst (run U get_text (js1 ++ j :: js2) st)
  = fst (run U get_text (js1 ++ js2) st) ∧
  notifier_calls (snd (run U get_text (js1 ++ j :: js2) st))
  = notifier_calls (snd (run U get_text (js1 ++ js2) st)).
Proof.
  intros Hq.
  destruct (run_raises U get_text js1 st) eqn:E.
  { by rewrite !(run_app_raise U get_text js1 _ st E). }
  destruct (run_app U get_text js1 (j :: js2) st E) as [-> ->].
  destruct (run_app U get_text js1 js2 st E) as [-> ->].
  generalize (fst (run U get_text js1 st)). intros st1.
  assert (job_raises U get_text j st1 = false) as Hj.
  { rewrite job_raises_eq. unfold due. by rewrite Hq. }
  destruct (run_cons U get_text j js2 st1 Hj) as [-> ->].
  pose proof (run_job_step U get_text j st1) as Hstep. revert Hstep.
  generalize (fst (run_job U get_text j st1))
             (snd (run_job U get_text j st1)).
  intros st' tr Hstep.
  destruct Hstep as [_|q Hq' _ _ _|q Hq' _ _ _|q Hq' _ _|Hd _];
    try congruence.
  - split; [done|]. rewrite !notifier_calls_app. f_equal.
    by rewrite (proj1 (notifier_calls_quiet _)
                  (fetch_trace_quiet U get_text j)).
  - unfold due in Hd. by rewrite Hq in Hd.
Qed.

(** C6, as the code has it.  The lock file opens, the lock is free and
    every load of the configuration succeeds; a visit, after visits that do
    not raise, has a notification to make, and the constructor of the
    client raises on the token of the configuration.  Then [main] ends by
    that exception, the lock released: the requests it has made are those
    of the visits before and of this visit, and no target after it is
    requested. *)
Theorem notification_failure_halts (pid : nat) (o : os)
    (loads : list (option config)) (env : nat → nat → nat → world)
    (js1 : list job) (j : job) (js2 : list job) :
  can_open o default_lock_file_path = true →
  lock_holder o = None →
  Forall is_Some loads →
  loop_jobs loads env 0 = js1 ++ j :: js2 →
  run_raises U get_text js1 initial = false →
  due U get_text j (fst (run U get_text js1 initial)) = true →
  bot_raises (j_config j) = true →
  snd (fst (main U get_text pid o loads env)) = Raise ∧
  lock_holder (fst (fst (main U get_text pid o loads env))) = None ∧
  gets (snd (main U get_text pid o loads env))
  = gets (snd (run U get_text js1 initial))
    ++ gets (fetch_trace U get_text j) ∧
  notifier_calls (snd (main U get_text pid o loads env))
  = notifier_calls (snd (run U get_text js1 initial)).
Proof.
  intros Hc Ho Hl Hjs H1 Hd Hb.
  assert (job_raises U get_text j (fst (run U get_text js1 initial)) = true)
    as Hj by (by rewrite job_raises_eq, Hd, Hb).
  assert (run_raises U get_text (loop_jobs loads env 0) initial = true)
    as Hr.
  { rewrite Hjs, run_raises_app, H1. cbn [orb run_raises]. by rewrite Hj. }
  assert (snd (run U get_text (loop_jobs loads env 0) initial)
          = snd (run U get_text js1 initial) ++ fetch_trace U get_text j)
    as Htr.
  { rewrite Hjs. destruct (run_app U get_text js1 (j :: js2) initial H1)
      as [_ ->].
    by rewrite (run_cons_raise U get_text j js2 _ Hj). }
  pose proof (main_loop_result loads env 0 initial) as Hres.
  rewrite Hr in Hres.
  pose proof (main_loop_filter is_get loads env 0 initial (λ _, eq_refl))
    as Hg.
  pose proof (main_loop_filter is_notifier loads env 0 initial
                (λ _, eq_refl)) as Hn.
  rewrite Htr in Hg, Hn.
  rewrite main_free by done. cbv zeta.
  destruct (main_loop U get_text loads env 0 initial) as [[st|c|] tr];
    cbn [fst snd] in *; try discriminate.
  split; [done|]. split; [by apply lock_released|]. split.
  - unfold gets. by rewrite Hg, filter_app.
  - unfold notifier_calls. rewrite Hn, filter_app.
    fold (notifier_calls (fetch_trace U get_text j)).
    rewrite (proj1 (notifier_calls_quiet _)
               (fetch_trace_quiet U get_text j)).
    by rewrite app_nil_r.
Qed.


(** C8, as the code has it.  When the lock file opens: if the lock on it is
    held, [acquire_lock] ends the process with exit code 1 and [main] has
    made no call; if it is free, [acquire_lock] returns the lock file, the
    lock is held by the process, and [main] is in the loop, started from the
    empty tables.  When the lock file does not open, [acquire_lock] ends by
    the exception of [open], and [main] with it, whoever holds the lock. *)
Theorem guard_exits_or_proceeds (pid : nat) (o : os)
    (loads : list (option config)) (env : nat → nat → nat → world) :
  (∀ lock_file_path,
     can_open o lock_file_path = true →
     (is_Some (locks o !! lock_file_path) →
      acquire_lock pid lock_file_path o = (o, Exit 1)) ∧
     (locks o !! lock_file_path = None →
      acquire_lock pid lock_file_path o
      = ({| can_open := can_open o;
            locks := <[lock_file_path := pid]> (locks o) |},
         Return {| owner := pid; path := lock_file_path |}))) ∧
  (∀ lock_file_path,
     can_open o lock_file_path = false →
     acquire_lock pid lock_file_path o = (o, Raise)) ∧
  (can_open o default_lock_file_path = true →
   is_Some (lock_holder o) →
   main U get_text pid o loads env = (o, Exit 1, [])) ∧
  (can_open o default_lock_file_path = true →
   lock_holder o = None →
   (snd (fst (main U get_text pid o loads env)) ≠ Raise →
    lock_holder (fst (fst (main U get_text pid o loads env))) = Some pid) ∧
   snd (fst (main U get_text pid o loads env))
   = fst (main_loop U get_text loads env 0 initial) ∧
   snd (main U get_text pid o loads env)
   = snd (main_loop U get_text loads env 0 initial)) ∧
  (can_open o default_lock_file_path = false →
   main U get_text pid o loads env = (o, Raise, [])).
Proof.
  split; [|split; [|split; [|split]]].
  - intros p Hc. unfold acquire_lock, flock_ex_nb. rewrite Hc. split.
    + by intros [q ->].
    + by intros ->.
  - intros p Hc. unfold acquire_lock. by rewrite Hc.
  - apply main_held.
  - intros Hc Ho. split; [|by apply main_free_result].
    rewrite main_free by done. cbv zeta.
    pose proof (main_loop_result loads env 0 initial) as Hres.
    destruct (main_loop U get_text loads env 0 initial) as [[st|c|] tr];
      cbn [fst snd] in *.
    + intros _. unfold lock_holder. cbn [locks]. apply lookup_insert_eq.
    + exfalso. destruct (run_raises _ _ _ _); [done|].
      by destruct (bool_decide _).
    + done.
  - apply main_closed.
Qed.

End Loops.

(** Of two processes started one after the other, the second exits with
    code 1 and the first keeps the lock. *)
Lemma second_instance_exits (pid1 pid2 : nat) :
  let o1 := fst (acquire_lock pid1 default_lock_file_path free_os) in
  acquire_lock pid2 default_lock_file_path o1 = (o1, Exit 1) ∧
  lock_holder o1 = Some pid1.
Proof.
  cbv zeta. unfold acquire_lock, flock_ex_nb, lock_holder, free_os.
  cbn [can_open locks fst]. rewrite lookup_empty. cbn [fst can_open locks].
  by rewrite lookup_insert_eq.
Qed.

(** The message, piece by piece. *)
Lemma compose_Some m s q message :
  compose m s q = Some message →
  ∃ t tg hw pr,
    title s = Some t ∧ tag m = Some tg ∧ hardware_info s = Some hw ∧
    price s = Some pr ∧
    ∃ coupon_section,
      message = (name m ++ py "-" ++ t) ++ nl ++ nl ++ tg ++ nl ++ nl
                ++ py "ℹ️" ++ (py "[" ++ hw ++ py "](" ++ url s ++ py ")")
                ++ coupon_section ++ py "💰Price: " ++ pr ++ nl ++ nl
                ++ (py "🛒[库存：" ++ (if gt0 q then py "有" else py "无")
                    ++ py "](" ++ url s ++ py ")").
Proof.
  unfold compose, escape_markdown.
  destruct (title s) as [t|]; [|done].
  destruct (tag m) as [tg|]; [|done].
  destruct (price s) as [pr|]; [|done].
  destruct (hardware_info s) as [hw|]; [|done].
  intros H. exists t, tg, hw, pr. repeat (split; [done|]).
  eexists. injection H as <-. reflexivity.
Qed.

(** The calls of [send_notification] are those of its [try] block. *)
Lemma send_notification_calls bot cfg m s q mid e :
  e ∈ snd (send_notification bot cfg m s q mid) →
  e ∈ snd (notify bot cfg m s q mid).
Proof.
  unfold send_notification.
  destruct (bot_raises cfg); [by intros ?%elem_of_nil|].
  by destruct (notify bot cfg m s q mid).
Qed.

(** C9.  [escape_markdown] returns its argument; the message holds the tag,
    the hardware description and the price as they are in the
    configuration, and it is the text that is sent or edited in. *)
Theorem escape_markdown_identity :
  (∀ text, escape_markdown text = text) ∧
  (∀ m s q message,
     compose m s q = Some message →
     ∃ tg hw pr a b c d,
       tag m = Some tg ∧ hardware_info s = Some hw ∧ price s = Some pr ∧
       message = a ++ tg ++ b ++ hw ++ c ++ pr ++ d) ∧
  (∀ bot cfg m s q mid chat text,
     SendMessage chat text ∈ snd (send_notification bot cfg m s q mid) →
     compose m s q = Some text) ∧
  (∀ bot cfg m s q mid chat id text,
     EditMessageText chat id text
     ∈ snd (send_notification bot cfg m s q mid) →
     compose m s q = Some text).
Proof.
  split; [done|]. split; [|split].
  - intros m s q message H.
    apply compose_Some in H
      as (t & tg & hw & pr & _ & Htg & Hhw & Hpr & cs & ->).
    exists tg, hw, pr.
    exists ((name m ++ py "-" ++ t) ++ nl ++ nl),
           (nl ++ nl ++ py "ℹ️" ++ py "["),
           (py "](" ++ url s ++ py ")" ++ cs ++ py "💰Price: ").
    eexists. repeat (split; [done|]).
    rewrite <- !app_assoc. reflexivity.
  - intros bot cfg m s q mid chat text H.
    apply send_notification_calls in H. revert H. unfold notify.
    destruct (compose m s q) as [message|]; [|by intros ?%elem_of_nil].
    destruct (gt0 q).
    + destruct (telegram_chat_id cfg); [|by intros ?%elem_of_nil].
      destruct (send_message bot); intros H%list_elem_of_singleton;
        by injection H as _ ->.
    + destruct mid as [id|]; [|by intros ?%elem_of_nil].
      destruct (id =? 0); [by intros ?%elem_of_nil|].
      destruct (telegram_chat_id cfg); [|by intros ?%elem_of_nil].
      by destruct (edit_message_text bot);
        intros H%list_elem_of_singleton.
  - intros bot cfg m s q mid chat id text H.
    apply send_notification_calls in H. revert H. unfold notify.
    destruct (compose m s q) as [message|]; [|by intros ?%elem_of_nil].
    destruct (gt0 q).
    + destruct (telegram_chat_id cfg); [|by intros ?%elem_of_nil].
      by destruct (send_message bot); intros H%list_elem_of_singleton.
    + destruct mid as [id'|]; [|by intros ?%elem_of_nil].
      destruct (id' =? 0); [by intros ?%elem_of_nil|].
      destruct (telegram_chat_id cfg); [|by intros ?%elem_of_nil].
      destruct (edit_message_text bot);
        intros H%list_elem_of_singleton; by injection H as _ _ ->.
Qed.

(** * The theorems on the configuration [settings] *)

Lemma notify_only_on_transition_witness :
  comes_in basic_tables Some
    (checking (serving (py "5 in stock") (Sent 41))) initial ∧
  previous_status
    (fst (run_job basic_tables Some
            (checking (serving (py "5 in stock") (Sent 41))) initial))
    (name shop) (url vps) = true.
Proof.
  apply (proj1 (notify_only_on_transition basic_tables Some [] initial
                  (checking (serving (py "5 in stock") (Sent 41))))
           (SendMessage (py "@restock") (message_for (QInt 5)))).
  - assert (snd (run_job basic_tables Some
                   (checking (serving (py "5 in stock") (Sent 41)))
                   (fst (run basic_tables Some [] initial)))
            = [Get (url vps);
               SendMessage (py "@restock") (message_for (QInt 5))]) as ->
      by (vm_compute; reflexivity).
    apply list_elem_of_further, list_elem_of_here.
  - reflexivity.
Defined.

(** The round trip fails when the send failed: the target goes out of stock
    and there is no identifier to edit. *)
Lemma deplete_without_edit :
  ¬ edits_prior_send basic_tables Some
      [checking (serving (py "5 in stock") SendRaised)]
      (checking (serving (py "缺货") (Sent 42))).
Proof.
  intros H. destruct H as (chat & id & text & Hl & _).
  - exists (QInt 0). repeat split; vm_compute; reflexivity.
  - vm_compute in Hl. discriminate.
Qed.

Lemma deplete_edits_stored_id_witness :
  notifier_calls
    (snd (run_job basic_tables Some
            (checking (serving (py "缺货") (Sent 42)))
            (fst (run basic_tables Some
                    [checking (serving (py "5 in stock") (Sent 41))]
                    initial))))
  = [EditMessageText (py "@restock") 41 (message_for (QInt 0))].
Proof.
  assert (goes_out basic_tables Some
            (checking (serving (py "缺货") (Sent 42)))
            (fst (run basic_tables Some
                    [checking (serving (py "5 in stock") (Sent 41))]
                    initial))) as Hgo.
  { exists (QInt 0). repeat split; vm_compute; reflexivity. }
  destruct (deplete_edits_stored_id basic_tables Some
              [checking (serving (py "5 in stock") (Sent 41))]
              (checking (serving (py "缺货") (Sent 42))) Hgo)
    as (_ & _ & r & Hr & _ & _ & Hedit).
  apply (Hedit 41 (QInt 0)).
  - vm_compute in Hr. by injection Hr as <-.
  - done.
  - vm_compute. reflexivity.
  - vm_compute. reflexivity.
  - reflexivity.
  - reflexivity.
Defined.

Lemma failure_skips_target_witness :
  fst (visit basic_tables Some settings shop vps unreachable initial)
  = initial ∧
  previous_status
    (fst (visit basic_tables Some settings shop vps unreachable initial))
    (name shop) (url vps)
  = previous_status initial (name shop) (url vps) ∧
  message_ids
    (fst (visit basic_tables Some settings shop vps unreachable initial))
    !! url vps
  = message_ids initial !! url vps ∧
  notifier_calls
    (snd (visit basic_tables Some settings shop vps unreachable initial))
  = [] ∧
  fst (loop_body basic_tables Some settings shop vps unreachable initial)
  = Return initial.
Proof.
  apply (failure_skips_target basic_tables Some settings shop vps
           unreachable initial).
  left. intros k _. reflexivity.
Defined.

Lemma failed_send_leaves_no_handle_witness :
  fst (send_notification (bot (serving (py "5 in stock") SendRaised))
         settings shop vps (QInt 5) None) = Return None ∧
  notifier_calls
    (snd (run_job basic_tables Some
            (checking (serving (py "缺货") (Sent 42)))
            (fst (run basic_tables Some
                    [checking (serving (py "7 in stock") (Sent 9))]
                    (fst (visit basic_tables Some settings shop vps
                            (serving (py "5 in stock") SendRaised)
                            initial)))))) = [].
Proof.
  destruct (failed_send_leaves_no_handle basic_tables Some settings shop vps
              (serving (py "5 in stock") SendRaised) initial
              [checking (serving (py "7 in stock") (Sent 9))]
              (checking (serving (py "缺货") (Sent 42)))
              (QInt 5) (QInt 0))
    as (H1 & _ & _ & _ & H2 & _).
  - vm_compute. reflexivity.
  - reflexivity.
  - reflexivity.
  - reflexivity.
  - reflexivity.
  - split; [|done]. intros _. vm_compute. reflexivity.
  - reflexivity.
  - reflexivity.
  - vm_compute. reflexivity.
  - reflexivity.
  - split; [exact H1|exact H2].
Defined.

(** A configuration without the key [telegram_token], the first target in
    stock: [main] ends by the [KeyError] on the first visit, having requested
    the first target once and called the chat API not at all. *)
Lemma notification_failure_halts_witness :
  snd (fst (main basic_tables Some 1 free_os
              [Some no_token; Some no_token]
              (λ _ _ _, serving (py "5 in stock") (Sent 41))))
  = Raise ∧
  gets (snd (main basic_tables Some 1 free_os
               [Some no_token; Some no_token]
               (λ _ _ _, serving (py "5 in stock") (Sent 41))))
  = [Get (url vps)].
Proof.
  destruct (notification_failure_halts basic_tables Some 1 free_os
              [Some no_token; Some no_token]
              (λ _ _ _, serving (py "5 in stock") (Sent 41))
              []
              {| j_config := no_token; j_merchant := shop;
                 j_stock := vps;
                 j_world := serving (py "5 in stock") (Sent 41) |}
              [{| j_config := no_token; j_merchant := shop;
                  j_stock := vps;
                  j_world := serving (py "5 in stock") (Sent 41) |}])
    as (H1 & _ & H2 & _).
  - reflexivity.
  - reflexivity.
  - repeat constructor; by eexists.
  - reflexivity.
  - reflexivity.
  - vm_compute. reflexivity.
  - reflexivity.
  - split; [exact H1|]. rewrite H2. vm_compute. reflexivity.
Defined.


(** The lock is free and the lock file does not open: no handle is
    returned and the process does not go on. *)
Lemma guard_raises_on_open :
  lock_holder closed_os = None ∧
  acquire_lock 1 default_lock_file_path closed_os = (closed_os, Raise) ∧
  main basic_tables Some 1 closed_os [Some settings]
    (λ _ _ _, unreachable)
  = (closed_os, Raise, []).
Proof. split; [|split]; reflexivity. Qed.

Lemma guard_exits_or_proceeds_witness :
  main basic_tables Some 2 held_os [Some settings] (λ _ _ _, unreachable)
  = (held_os, Exit 1, []) ∧
  acquire_lock 1 default_lock_file_path free_os
  = ({| can_open := can_open free_os;
        locks := <[default_lock_file_path := 1%nat]> (locks free_os) |},
     Return {| owner := 1; path := default_lock_file_path |}).
Proof.
  split.
  - apply (proj1 (proj2 (proj2 (guard_exits_or_proceeds basic_tables Some 2
                                  held_os [Some settings]
                                  (λ _ _ _, unreachable))))).
    + reflexivity.
    + exists 1%nat. vm_compute. reflexivity.
  - apply (proj1 (guard_exits_or_proceeds basic_tables Some 1
                    free_os [Some settings] (λ _ _ _, unreachable))
             default_lock_file_path).
    + reflexivity.
    + vm_compute. reflexivity.
Defined.

Lemma escape_markdown_identity_witness :
  ∃ tg hw pr a b c d,
    tag shop = Some tg ∧ hardware_info vps = Some hw ∧
    price vps = Some pr ∧
    message_for (QInt 5) = a ++ tg ++ b ++ hw ++ c ++ pr ++ d.
Proof.
  apply (proj1 (proj2 escape_markdown_identity) shop vps (QInt 5)).
  vm_compute. reflexivity.
Defined.


(** * Further properties of the fetcher *)

Lemma gets_cons_get u tr : gets (Get u :: tr) = Get u :: gets tr.
Proof. unfold gets. by rewrite filter_cons_True. Qed.

Lemma gets_cons_sleep z tr : gets (Sleep z :: tr) = gets tr.
Proof. unfold gets. by rewrite filter_cons_False. Qed.

Lemma sleeps_cons_get u tr : sleeps (Get u :: tr) = sleeps tr.
Proof. unfold sleeps. by rewrite filter_cons_False. Qed.

Lemma sleeps_cons_sleep z tr : sleeps (Sleep z :: tr) = Sleep z :: sleeps tr.
Proof. unfold sleeps. by rewrite filter_cons_True. Qed.

Lemma fetch_attempts_first_success scraper u a n k body :
  (k < n)%nat → scraper (a + k)%nat = Response 200 body →
  (∀ i, (i < k)%nat → failed (scraper (a + i)%nat) = true) →
  fst (fetch_attempts scraper u a n) = Some body ∧
  length (gets (snd (fetch_attempts scraper u a n))) = S k.
Proof.
  revert a n. induction k as [|k IH]; intros a n Hk E Hfail.
  - destruct n as [|n]; [lia|]. replace (a + 0)%nat with a in E by lia.
    cbn [fetch_attempts]. by rewrite E.
  - destruct n as [|n]; [lia|].
    destruct (IH (S a) n) as [IH1 IH2]; [lia| | |].
    { by replace (S a + k)%nat with (a + S k)%nat by lia. }
    { intros i Hi. replace (S a + i)%nat with (a + S i)%nat by lia.
      apply Hfail. lia. }
    pose proof (Hfail 0%nat) as H0. replace (a + 0)%nat with a in H0 by lia.
    specialize (H0 ltac:(lia)).
    cbn [fetch_attempts].
    destruct (scraper a) as [code b|].
    + cbn [failed] in H0. apply negb_true_iff in H0. rewrite H0.
      destruct (fetch_attempts scraper u (S a) n) as [r tr].
      cbn [fst snd] in *. split; [done|].
      rewrite gets_cons_get. cbn [length]. by rewrite IH2.
    + destruct (fetch_attempts scraper u (S a) n) as [r tr].
      cbn [fst snd] in *. split; [done|].
      rewrite gets_cons_get, gets_cons_sleep. cbn [length]. by rewrite IH2.
Qed.

Lemma fetch_attempts_None_gets scraper u a n :
  fst (fetch_attempts scraper u a n) = None →
  length (gets (snd (fetch_attempts scraper u a n))) = n.
Proof.
  revert a. induction n as [|n IH]; intros a; [done|].
  cbn [fetch_attempts].
  destruct (scraper a) as [code b|].
  - destruct (code =? 200); [done|]. specialize (IH (S a)).
    destruct (fetch_attempts scraper u (S a) n) as [r tr].
    cbn [fst snd] in *. intros H.
    rewrite gets_cons_get. cbn [length]. by rewrite IH.
  - specialize (IH (S a)).
    destruct (fetch_attempts scraper u (S a) n) as [r tr].
    cbn [fst snd] in *. intros H.
    rewrite gets_cons_get, gets_cons_sleep. cbn [length]. by rewrite IH.
Qed.

Lemma fetch_attempts_sleeps scraper u a n :
  sleeps (snd (fetch_attempts scraper u a n))
  = replicate
      (count_raised scraper a
         (length (gets (snd (fetch_attempts scraper u a n)))))
      (Sleep 2).
Proof.
  revert a. induction n as [|n IH]; intros a; [done|].
  cbn [fetch_attempts].
  destruct (scraper a) as [code b|] eqn:E.
  - destruct (code =? 200).
    + cbn [snd]. rewrite sleeps_cons_get, gets_cons_get.
      cbn [length count_raised]. by rewrite E.
    + specialize (IH (S a)).
      destruct (fetch_attempts scraper u (S a) n) as [r tr].
      cbn [fst snd] in *. rewrite sleeps_cons_get, gets_cons_get.
      cbn [length count_raised]. by rewrite E, IH.
  - specialize (IH (S a)).
    destruct (fetch_attempts scraper u (S a) n) as [r tr].
    cbn [fst snd] in *.
    rewrite sleeps_cons_get, sleeps_cons_sleep, gets_cons_get,
      gets_cons_sleep.
    cbn [length count_raised]. by rewrite E, IH.
Qed.

Lemma count_raised_le scraper a n : (count_raised scraper a n ≤ n)%nat.
Proof.
  revert a. induction n as [|n IH]; intros a; simpl; [done|].
  specialize (IH (S a)). destruct (raised (scraper a)); lia.
Qed.

(** X1.  [fetch_html] returns the body of the first attempt that is answered
    with status 200 and makes no request after it. *)
Theorem fetch_html_first_success (scraper : nat → response) (u : pystr)
    (retries k : nat) (body : pystr) :
  (k < retries)%nat → scraper k = Response 200 body →
  (∀ i, (i < k)%nat → failed (scraper i) = true) →
  fst (fetch_html scraper u retries) = Some body ∧
  length (gets (snd (fetch_html scraper u retries))) = S k.
Proof.
  intros Hk E Hfail. by apply (fetch_attempts_first_success scraper u 0).
Qed.

Lemma fetch_html_first_success_witness :
  fst (fetch_html
         (λ k, if decide (k = 1%nat) then Response 200 (py "5 in stock")
               else GetRaised)
         (url vps) 3) = Some (py "5 in stock") ∧
  length (gets (snd (fetch_html
         (λ k, if decide (k = 1%nat) then Response 200 (py "5 in stock")
               else GetRaised)
         (url vps) 3))) = 2%nat.
Proof.
  apply (fetch_html_first_success _ (url vps) 3 1 (py "5 in stock")).
  - lia.
  - reflexivity.
  - intros [|i] Hi; [reflexivity|lia].
Defined.

(** X2.  [fetch_html] returns [None] exactly when every attempt ends in an
    exception or a status other than 200, and then it has made [retries]
    requests. *)
Theorem fetch_html_None_iff (scraper : nat → response) (u : pystr)
    (retries : nat) :
  (fst (fetch_html scraper u retries) = None ↔
   ∀ k, (k < retries)%nat → failed (scraper k) = true) ∧
  (fst (fetch_html scraper u retries) = None →
   length (gets (snd (fetch_html scraper u retries))) = retries).
Proof.
  split.
  - apply (fetch_attempts_None scraper u 0).
  - apply fetch_attempts_None_gets.
Qed.

Lemma fetch_html_None_iff_witness :
  length (gets (snd (fetch_html (scraper unreachable) (url vps) 3)))
  = 3%nat.
Proof.
  apply (proj2 (fetch_html_None_iff (scraper unreachable) (url vps) 3)).
  reflexivity.
Defined.

(** X3.  The waits of [fetch_html] are waits of 2 seconds, one for each
    attempt made that ended in an exception, the last attempt included; so
    there are at most [retries] of them. *)
Theorem fetch_html_waits (scraper : nat → response) (u : pystr)
    (retries : nat) :
  sleeps (snd (fetch_html scraper u retries))
  = replicate
      (count_raised scraper 0
         (length (gets (snd (fetch_html scraper u retries)))))
      (Sleep 2) ∧
  (length (sleeps (snd (fetch_html scraper u retries))) ≤ retries)%nat.
Proof.
  unfold fetch_html. split; [apply fetch_attempts_sleeps|].
  rewrite fetch_attempts_sleeps, length_replicate.
  pose proof (count_raised_le scraper 0
                (length (gets (snd (fetch_attempts scraper u 0 retries))))).
  pose proof (fetch_attempts_bounded scraper u 0 retries) as Hb.
  unfold gets in *. lia.
Qed.

(** * Further properties of the parser *)

Section ParserMore.

Context (U : unicode) (get_text : pystr → option pystr).

Lemma parse_stock_sign html marker q :
  parse_stock U get_text html marker = Some q → gt0 q = negb (eq0 q).
Proof.
  unfold parse_stock. destruct (get_text html) as [text|]; [|done].
  destruct (re_search U text) as [ds|].
  - destruct (py_int U ds) as [n|] eqn:E; [|done]. intros [= <-].
    apply py_int_Some in E. simpl.
    destruct (Z.eqb_spec n 0) as [->|?]; simpl; lia.
  - destruct marker as [marker|]; [|done].
    by destruct (contains marker text); intros [= <-].
Qed.

(** X4.  [parse_stock] fails exactly when the HTML parser raises, when the
    first match has more than 4300 digits, or when nothing matches and the
    marker is not a string; a quantity it returns is an integer that is not
    negative, or the unbounded value, so that exactly one of the tests [> 0]
    and [== 0] of the loop holds of it. *)
Theorem parse_stock_quantity_sign (html : pystr) (marker : jvalue) :
  (parse_stock U get_text html marker = None ↔
   get_text html = None ∨
   (∃ text ds, get_text html = Some text ∧ re_search U text = Some ds ∧
               (4300 < length ds)%nat) ∨
   (∃ text, get_text html = Some text ∧ re_search U text = None ∧
            marker = JOther)) ∧
  (∀ q, parse_stock U get_text html marker = Some q →
        gt0 q = negb (eq0 q) ∧ ∀ n, q = QInt n → 0 ≤ n).
Proof.
  unfold parse_stock. destruct (get_text html) as [text|];
    [|split; [split; [by left|done]|done]].
  destruct (re_search U text) as [ds|] eqn:E.
  - unfold py_int, max_str_digits.
    destruct (Nat.ltb_spec 4300 (length ds)) as [Hl|Hl];
      cbn [fmap option_fmap option_map].
    + split; [|done]. split; [|done]. intros _. right. left. eauto.
    + split.
      * split; [done|].
        intros [?|[(t & ds' & [= <-] & ? & ?)|(t & [= <-] & ? & _)]];
          [done| |congruence].
        assert (ds' = ds) as -> by congruence. lia.
      * intros q [= <-]. pose proof (int_of_nonneg U ds).
        split; [|by intros ? [= <-]]. simpl.
        destruct (Z.eqb_spec (int_of U ds) 0) as [->|?]; simpl; lia.
  - destruct marker as [marker|].
    + split.
      * split; [by destruct (contains marker text)|].
        intros [?|[(t & ds' & [= <-] & ? & ?)|(t & _ & _ & ?)]];
          [done|congruence|done].
      * intros q. destruct (contains marker text); intros [= <-].
        -- split; [done|]. by intros ? [= <-].
        -- split; [done|]. by intros ? [=].
    + split; [|done]. split; [|done]. intros _. right. right. eauto.
Qed.

(** X5.  With an empty marker a page never reads as unbounded: a quantity
    read is an integer, and a page that names no count reads as 0, since the
    empty string occurs in every text. *)
Theorem parse_stock_empty_marker (html text : pystr) :
  get_text html = Some text →
  (∀ q, parse_stock U get_text html (JStr []) = Some q →
        ∃ n, q = QInt n ∧ 0 ≤ n) ∧
  (re_search U text = None →
   parse_stock U get_text html (JStr []) = Some (QInt 0)).
Proof.
  intros Ht. unfold parse_stock. rewrite Ht.
  assert (contains [] text = true) as -> by (by destruct text).
  destruct (re_search U text) as [ds|].
  - split; [|done]. intros q Hq.
    destruct (py_int U ds) as [n|] eqn:E; [|done].
    injection Hq as <-. exists n. split; [done|]. by eapply py_int_Some.
  - split; [|done]. intros q [= <-]. by exists 0.
Qed.


End ParserMore.

Lemma parse_stock_quantity_sign_witness :
  gt0 (QInt 12) = negb (eq0 (QInt 12)) ∧ ∀ n, QInt 12 = QInt n → 0 ≤ n.
Proof.
  apply (proj2 (parse_stock_quantity_sign basic_tables Some
                  (py "Only 12  IN Stock now") (JStr (py "缺货")))).
  vm_compute. reflexivity.
Defined.

Lemma parse_stock_empty_marker_witness :
  parse_stock basic_tables Some (py "Order now") (JStr []) = Some (QInt 0).
Proof.
  apply (proj2 (parse_stock_empty_marker basic_tables Some (py "Order now")
                  (py "Order now") eq_refl)).
  vm_compute. reflexivity.
Defined.


(** * Further properties of the notifier *)

(** X7.  The message cannot be composed exactly when the target has no
    title, price or hardware description or the merchant has no tag; the
    coupons and the URL never prevent it. *)
Theorem compose_None_iff (m : merchant) (s : stock) (q : quantity) :
  compose m s q = None ↔
  title s = None ∨ tag m = None ∨ price s = None ∨ hardware_info s = None.
Proof.
  unfold compose.
  destruct (title s) as [t|]; [|by split; eauto].
  destruct (tag m) as [tg|]; [|by split; eauto].
  destruct (price s) as [pr|]; [|by split; eauto].
  destruct (hardware_info s) as [hw|]; [|by split; eauto 6].
  split; [done|]. by intros [?|[?|[?|?]]].
Qed.

(** X8.  The message shows whether the quantity is positive and nothing else
    of it: two quantities on the same side of 0 give the same message. *)
Theorem compose_quantity_sign (m : merchant) (s : stock) (q q' : quantity) :
  gt0 q = gt0 q' → compose m s q = compose m s q'.
Proof. intros H. unfold compose. by rewrite H. Qed.

Lemma compose_quantity_sign_witness :
  compose shop vps (QInt 5) = compose shop vps QInf.
Proof. apply compose_quantity_sign. reflexivity. Defined.

(** X9.  A coupon that is the empty string is left out of the message like
    a coupon that is absent. *)
Theorem compose_empty_coupon (m : merchant) (s : stock) (q : quantity) :
  coupon_monthly m = Some [] →
  compose m s q
  = compose {| name := name m; tag := tag m; coupon_monthly := None;
               coupon_annual := coupon_annual m;
               out_of_stock_text := out_of_stock_text m;
               stock_urls := stock_urls m |} s q.
Proof. intros H. unfold compose. cbn [coupon_monthly]. by rewrite H. Qed.

(** X10.  [send_notification] returns an identifier exactly when the
    constructor of the client returns, the quantity is positive, the message
    can be composed, the chat identifier is configured and [send_message]
    returns that identifier; a call that edits returns [None] also when the
    edit goes through. *)
Theorem send_notification_returns_id (bot : telegram) (cfg : config)
    (m : merchant) (s : stock) (q : quantity) (mid : option Z) (id : Z) :
  fst (send_notification bot cfg m s q mid) = Return (Some id) ↔
  bot_raises cfg = false ∧ gt0 q = true ∧ is_Some (compose m s q) ∧
  is_Some (telegram_chat_id cfg) ∧ send_message bot = Sent id.
Proof.
  unfold send_notification.
  destruct (bot_raises cfg); [split; [done|by intros (? & _)]|].
  assert (fst (notify bot cfg m s q mid) = Some id ↔
          gt0 q = true ∧ is_Some (compose m s q) ∧
          is_Some (telegram_chat_id cfg) ∧ send_message bot = Sent id)
    as Hn.
  { unfold notify.
    destruct (compose m s q) as [message|].
    - destruct (gt0 q).
      + destruct (telegram_chat_id cfg) as [chat|].
        * destruct (send_message bot) as [id'|]; simpl.
          -- split; [intros [= ->]; eauto 6|].
             by intros (_ & _ & _ & [= ->]).
          -- split; [done|]. by intros (_ & _ & _ & ?).
        * split; [done|]. by intros (_ & _ & [? ?] & _).
      + split; [|by intros (? & _)].
        destruct mid as [i|]; [|done]. destruct (i =? 0); [done|].
        destruct (telegram_chat_id cfg); [|done].
        by destruct (edit_message_text bot).
    - split; [done|]. by intros (_ & [? ?] & _). }
  destruct (notify bot cfg m s q mid) as [r tr]. cbn [fst] in *. split.
  - intros [= ->]. split; [done|]. by apply Hn.
  - intros (_ & H). f_equal. by apply Hn.
Qed.

(** X11.  [send_notification] edits a message exactly when the constructor
    of the client returns, the quantity is not positive, it is given an
    identifier other than 0, the message can be composed and the chat
    identifier is configured; the edit is of that identifier, with that
    message. *)
Theorem send_notification_edits_iff (bot : telegram) (cfg : config)
    (m : merchant) (s : stock) (q : quantity) (mid : option Z)
    (chat : pystr) (id : Z) (text : pystr) :
  EditMessageText chat id text ∈ snd (send_notification bot cfg m s q mid) ↔
  bot_raises cfg = false ∧
  gt0 q = false ∧ mid = Some id ∧ id ≠ 0 ∧ compose m s q = Some text ∧
  telegram_chat_id cfg = Some chat.
Proof.
  unfold send_notification.
  destruct (bot_raises cfg);
    [split; [by intros ?%elem_of_nil|by intros (? & _)]|].
  assert (snd (let '(r, tr) := notify bot cfg m s q mid in (Return r, tr))
          = snd (notify bot cfg m s q mid)) as ->
    by (by destruct (notify bot cfg m s q mid)).
  split.
  - intros H. split; [done|]. destruct (gt0 q) eqn:Hq.
    + destruct (notify_send bot cfg m s q mid Hq)
        as [E|(c & t & _ & _ & E)]; rewrite E in H.
      * by apply elem_of_nil in H.
      * by apply list_elem_of_singleton in H.
    + destruct (notify_edit bot cfg m s q mid Hq)
        as [_ [E|(c & t & i & Hc & Hchat & -> & Hi & E)]]; rewrite E in H.
      * by apply elem_of_nil in H.
      * apply list_elem_of_singleton in H. injection H as -> -> ->. eauto.
  - intros (_ & Hq & -> & Hid & Hc & Hchat).
    rewrite (notify_edit_exact bot cfg m s q id text chat) by done.
    apply list_elem_of_here.
Qed.

Lemma compose_empty_coupon_witness :
  compose {| name := py "Shop"; tag := Some (py "#shop");
             coupon_monthly := Some []; coupon_annual := None;
             out_of_stock_text := None; stock_urls := [vps] |} vps (QInt 5)
  = compose {| name := py "Shop"; tag := Some (py "#shop");
               coupon_monthly := None; coupon_annual := None;
               out_of_stock_text := None; stock_urls := [vps] |} vps
      (QInt 5).
Proof.
  exact (compose_empty_coupon
           {| name := py "Shop"; tag := Some (py "#shop");
              coupon_monthly := Some []; coupon_annual := None;
              out_of_stock_text := None; stock_urls := [vps] |} vps (QInt 5)
           eq_refl).
Defined.

(** * Further properties of the loop *)

Section LoopMore.

Context (U : unicode) (get_text : pystr → option pystr).

Lemma quantity_of_sign j q :
  quantity_of U get_text j = Some q → gt0 q = negb (eq0 q).
Proof.
  unfold quantity_of, check_stock.
  destruct (fetch_html _ _ _) as [[html|] tr]; [|done]. simpl.
  apply parse_stock_sign.
Qed.

(** X12.  A visit changes no entry of [merchant_status] but the one of its
    merchant and URL, and no entry of [message_ids] but the one of its URL;
    and it leaves [message_ids] as it is unless the target comes into
    stock. *)
Theorem visit_frame (j : job) (st : state) :
  (∀ n u, ¬ (n = name (j_merchant j) ∧ u = url (j_stock j)) →
          previous_status (fst (run_job U get_text j st)) n u
          = previous_status st n u) ∧
  (∀ u, u ≠ url (j_stock j) →
        message_ids (fst (run_job U get_text j st)) !! u
        = message_ids st !! u) ∧
  (¬ comes_in U get_text j st →
   message_ids (fst (run_job U get_text j st)) = message_ids st).
Proof.
  pose proof (run_job_step U get_text j st) as Hstep. revert Hstep.
  generalize (fst (run_job U get_text j st)) (snd (run_job U get_text j st)).
  intros st' tr Hstep.
  destruct Hstep as [Hq|q Hq Hgt Hp Hb|q Hq Heq Hp Hb|q Hq H1 H2|Hdue Hb]; try done.
  - split; [|split].
    + intros n u Hne. unfold previous_status. simpl. rewrite status_of_set.
      rewrite decide_False; [done|]. intros [? ?]. by apply Hne.
    + intros u Hu. simpl. by rewrite lookup_insert_ne.
    + intros Hno. exfalso. apply Hno. by exists q.
  - split; [|done].
    intros n u Hne. unfold previous_status. simpl. rewrite status_of_set.
    rewrite decide_False; [done|]. intros [? ?]. by apply Hne.
Qed.

(** X13.  After a visit whose check succeeds and which does not raise, the
    entry of the target says whether the quantity read is positive, whatever
    it said before. *)
Theorem status_reflects_quantity (j : job) (st : state) (q : quantity) :
  job_raises U get_text j st = false →
  quantity_of U get_text j = Some q →
  previous_status (fst (run_job U get_text j st)) (name (j_merchant j))
    (url (j_stock j)) = gt0 q.
Proof.
  intros Hj Hq. pose proof (quantity_of_sign j q Hq) as Hsign.
  rewrite job_raises_eq in Hj.
  pose proof (run_job_step U get_text j st) as Hstep. revert Hstep.
  generalize (fst (run_job U get_text j st)) (snd (run_job U get_text j st)).
  intros st' tr Hstep.
  destruct Hstep
    as [Hq'|q' Hq' Hgt Hp Hb|q' Hq' Heq Hp Hb|q' Hq' H1 H2|Hd Hb];
    try congruence; try (assert (q' = q) as -> by congruence).
  - unfold previous_status. simpl. rewrite status_of_set.
    by rewrite decide_True.
  - unfold previous_status. simpl. rewrite status_of_set.
    rewrite decide_True by done. by rewrite (eq0_not_gt0 q Heq).
  - destruct (gt0 q), (eq0 q),
      (previous_status st (name (j_merchant j)) (url (j_stock j)));
      simpl in *; congruence.
  - by rewrite Hd, Hb in Hj.
Qed.

(** X14.  In a run from the start of the process, [message_ids] holds for
    each URL what the latest send for that URL returned, and nothing for a
    URL without a send. *)
Theorem message_ids_tracks_last_send (js : list job) (u : pystr) :
  message_ids (fst (run U get_text js initial)) !! u
  = last_send U get_text u js initial None.
Proof.
  pose proof (message_ids_last_send U get_text u js initial None I) as H.
  destruct (last_send U get_text u js initial None); [done|].
  rewrite H. simpl. apply lookup_empty.
Qed.

(** X15.  In a run from the start of the process, a target that the table
    says is in stock has an entry in [message_ids] for its URL. *)
Theorem in_stock_has_entry (js : list job) (n u : pystr) :
  previous_status (fst (run U get_text js initial)) n u = true →
  is_Some (message_ids (fst (run U get_text js initial)) !! u).
Proof.
  intros Hp.
  assert (is_Some (last_send U get_text u js initial None)) as [r Hr].
  { eapply in_stock_has_send; [|exact Hp].
    intros n'. by rewrite previous_status_initial. }
  pose proof (message_ids_last_send U get_text u js initial None I) as H.
  rewrite Hr in H. eauto.
Qed.

(** X16.  An entry of [message_ids] is never removed. *)
Theorem entries_are_kept (js : list job) (st : state) (u : pystr) :
  is_Some (message_ids st !! u) →
  is_Some (message_ids (fst (run U get_text js st)) !! u).
Proof.
  revert st. induction js as [|j js IH]; intros st H; [done|].
  destruct (job_raises U get_text j st) eqn:Hj.
  { by rewrite (run_cons_raise U get_text j js st Hj). }
  destruct (run_cons U get_text j js st Hj) as [-> _]. apply IH.
  rewrite message_ids_after.
  destruct (sent_id U get_text j st); [|done]. by case_decide.
Qed.

(** X17.  [message_ids] is keyed by the URL alone: when two merchants list
    the same URL and the second sends a message for it, the first merchant's
    target going out of stock edits the message of the second. *)
Theorem shared_url_edits_latest (st : state) (j2 j3 : job)
    (q2 q3 : quantity) (id2 : Z) (chat message : pystr) :
  url (j_stock j2) = url (j_stock j3) →
  previous_status st (name (j_merchant j3)) (url (j_stock j3)) = true →
  previous_status st (name (j_merchant j2)) (url (j_stock j2)) = false →
  quantity_of U get_text j2 = Some q2 → gt0 q2 = true →
  fst (send_notification (bot (j_world j2)) (j_config j2) (j_merchant j2)
         (j_stock j2) q2 None) = Return (Some id2) →
  id2 ≠ 0 →
  quantity_of U get_text j3 = Some q3 → eq0 q3 = true →
  compose (j_merchant j3) (j_stock j3) q3 = Some message →
  telegram_chat_id (j_config j3) = Some chat →
  bot_raises (j_config j3) = false →
  notifier_calls
    (snd (run_job U get_text j3 (fst (run_job U get_text j2 st))))
  = [EditMessageText chat id2 message].
Proof.
  intros Hu Hp3 Hp2 Hq2 Hgt2 Hid Hne Hq3 Heq3 Hc Hchat Hb3.
  assert (bot_raises (j_config j2) = false ∧
          fst (notify (bot (j_world j2)) (j_config j2) (j_merchant j2)
                 (j_stock j2) q2 None) = Some id2) as [Hb2 Hid2].
  { revert Hid. unfold send_notification.
    destruct (bot_raises (j_config j2)); [done|].
    destruct (notify _ _ _ _ _ None) as [r tr]. by intros [= ->]. }
  assert (message_ids (fst (run_job U get_text j2 st)) !! url (j_stock j3)
          = Some (Some id2)) as Hids.
  { rewrite message_ids_after.
    rewrite (proj2 (sent_id_Some U get_text j2 st _)) by (exists q2; eauto).
    rewrite decide_True by done. by rewrite Hid2. }
  assert (previous_status (fst (run_job U get_text j2 st))
            (name (j_merchant j3)) (url (j_stock j3)) = true) as Hp.
  { pose proof (run_job_step U get_text j2 st) as Hstep. revert Hstep.
    generalize (fst (run_job U get_text j2 st))
               (snd (run_job U get_text j2 st)).
    intros st' tr Hstep.
    destruct Hstep
      as [Hq|q Hq Hgt Hp Hb|q Hq Heq Hp Hb|q Hq H1 H2|Hdue Hb]; try done;
      unfold previous_status; simpl; rewrite status_of_set;
      case_decide; try done.
    assert (q = q2) as -> by congruence.
    rewrite (eq0_not_gt0 q2 Heq) in Hgt2. done. }
  revert Hids Hp. generalize (fst (run_job U get_text j2 st)).
  intros st2 Hids Hp.
  destruct (goes_out_step U get_text j3 st2 q3 Hq3 Heq3 Hp) as [_ ->].
  rewrite notifier_calls_fetch, Hids, Hb3. simpl.
  rewrite (notify_edit_exact _ _ _ _ _ id2 message chat);
    auto using eq0_not_gt0.
Qed.

Lemma fetch_attempts_gets_url scraper u a n e :
  e ∈ gets (snd (fetch_attempts scraper u a n)) → e = Get u.
Proof.
  unfold gets. revert a. induction n as [|n IH]; intros a.
  - by intros ?%elem_of_nil.
  - cbn [fetch_attempts].
    destruct (scraper a) as [code body|].
    + destruct (code =? 200); cbn [snd].
      * rewrite filter_cons_True by done.
        by intros ->%list_elem_of_singleton.
      * specialize (IH (S a)).
        destruct (fetch_attempts scraper u (S a) n) as [r tr].
        cbn [snd] in *. rewrite filter_cons_True by done.
        intros [->|H]%elem_of_cons; [done|]. by apply IH.
    + specialize (IH (S a)).
      destruct (fetch_attempts scraper u (S a) n) as [r tr].
      cbn [snd] in *. rewrite filter_cons_True by done.
      rewrite filter_cons_False by done.
      intros [->|H]%elem_of_cons; [done|]. by apply IH.
Qed.

Lemma gets_notifier b :
  Forall (λ e, is_notifier e = true) b → gets b = [].
Proof.
  unfold gets. induction 1 as [|e b He _ IH]; [done|].
  rewrite filter_cons_False; [done|]. by destruct e.
Qed.

Lemma notify_notifier b cfg m s q mid :
  Forall (λ e, is_notifier e = true) (snd (notify b cfg m s q mid)) ∧
  (length (snd (notify b cfg m s q mid)) ≤ 1)%nat.
Proof.
  destruct (gt0 q) eqn:Hq.
  - destruct (notify_send b cfg m s q mid Hq)
      as [->|(c & t & _ & _ & ->)]; split; simpl; try lia;
      by repeat constructor.
  - destruct (notify_edit b cfg m s q mid Hq)
      as [_ [->|(c & t & i & _ & _ & _ & _ & ->)]]; split; simpl; try lia;
      by repeat constructor.
Qed.

Lemma fetch_trace_calls j : visit_calls j (fetch_trace U get_text j).
Proof.
  unfold visit_calls.
  rewrite (proj1 (notifier_calls_quiet _) (fetch_trace_quiet U get_text j)).
  unfold fetch_trace, check_stock, fetch_html.
  pose proof (fetch_attempts_bounded (scraper (j_world j))
                (url (j_stock j)) 0 3) as Hb.
  pose proof (fetch_attempts_get (scraper (j_world j)) (url (j_stock j))
                0 2) as Hin.
  pose proof (fetch_attempts_gets_url (scraper (j_world j))
                (url (j_stock j)) 0 3) as Hu.
  assert (∀ tr : list event,
            Get (url (j_stock j)) ∈ tr → (1 ≤ length (gets tr))%nat) as H1.
  { intros tr H.
    assert (Get (url (j_stock j)) ∈ gets tr) as H'
      by (apply list_elem_of_filter; by split).
    destruct (gets tr); [by apply elem_of_nil in H'|simpl; lia]. }
  destruct (fetch_attempts _ _ _ _) as [[html|] tr]; cbn [fst snd] in *;
    (split; [split; [by apply H1|done]|split; [done|simpl; lia]]).
Qed.

(** The calls of one visit. *)
Lemma run_job_calls j st : visit_calls j (snd (run_job U get_text j st)).
Proof.
  pose proof (fetch_trace_calls j) as Hf.
  assert (∀ b, Forall (λ e, is_notifier e = true) b → (length b ≤ 1)%nat →
               visit_calls j (fetch_trace U get_text j ++ b)) as Hg.
  { intros b Hb Hl. destruct Hf as (H1 & H2 & H3). unfold visit_calls.
    assert (gets (fetch_trace U get_text j ++ b)
            = gets (fetch_trace U get_text j)) as ->.
    { unfold gets. rewrite filter_app.
      fold (gets b). by rewrite (gets_notifier b Hb), app_nil_r. }
    split; [done|]. split; [done|].
    rewrite notifier_calls_fetch.
    pose proof (length_filter (λ e, is_notifier e = true) b).
    unfold notifier_calls. lia. }
  destruct (run_job_step U get_text j st); try done;
    apply Hg; apply notify_notifier.
Qed.

(** The calls of a run, visit by visit: one segment for each visit made, in
    order; every visit is made unless one raises. *)
Lemma run_segments js st :
  ∃ trs, snd (run U get_text js st) = concat trs ∧
         Forall2 visit_calls (take (length trs) js) trs ∧
         (run_raises U get_text js st = false → length trs = length js).
Proof.
  revert st. induction js as [|j js IH]; intros st.
  - exists []. by repeat split.
  - rewrite run_eq. cbn [run_raises].
    destruct (job_raises U get_text j st) eqn:Hj; cbn [orb snd].
    + exists [snd (run_job U get_text j st)].
      rewrite (job_raises_run_job U get_text j st Hj). cbn [snd concat].
      rewrite app_nil_r. split; [done|]. split; [|done].
      cbn [length take]. rewrite take_0.
      constructor; [apply fetch_trace_calls|constructor].
    + destruct (IH (fst (run_job U get_text j st))) as (trs & -> & HF & Hl).
      exists (snd (run_job U get_text j st) :: trs).
      split; [done|]. split.
      * cbn [length take]. constructor; [apply run_job_calls|done].
      * intros H. cbn [length]. by rewrite Hl.
Qed.

Lemma stock_jobs_targets cfg m env i ss :
  map j_stock (stock_jobs cfg m env i ss) = ss.
Proof.
  revert i. induction ss as [|s ss IH]; intros i; simpl; [done|].
  by rewrite IH.
Qed.

Lemma merchant_jobs_targets cfg env i ms :
  map j_stock (merchant_jobs cfg env i ms) = concat (map stock_urls ms).
Proof.
  revert i. induction ms as [|m ms IH]; intros i; simpl; [done|].
  by rewrite map_app, stock_jobs_targets, IH.
Qed.


(** X19.  The loop makes no call after a load of the configuration fails:
    it ends by an exception with the calls of the rounds before, and what
    would have been loaded later does not matter. *)
Theorem main_loop_stops_at_failed_load (l1 l2 : list (option config))
    (env : nat → nat → nat → world) (round : nat) (st : state) :
  Forall is_Some l1 →
  main_loop U get_text (l1 ++ None :: l2) env round st
  = (Raise, snd (main_loop U get_text l1 env round st)).
Proof.
  intros H. revert round st.
  induction H as [|[cfg|] l1 [? ?] _ IH]; intros round st; [done| |done].
  change ((Some cfg :: l1) ++ None :: l2)
    with (Some cfg :: (l1 ++ None :: l2)).
  cbn [main_loop]. unfold poll_cycle.
  rewrite (for_merchants_run U get_text). unfold run_result.
  destruct (run_raises U get_text _ st); cbn [and_then]; [done|].
  rewrite IH.
  by destruct (main_loop U get_text l1 env (S round) _) as [r t2].
Qed.

(** X20.  When the lock file opens and the loop ends by an exception, of a
    load or of a visit, [main] has released the lock, and an instance
    started then runs its loop; while the loop of the first instance runs,
    an instance started beside it exits with code 1. *)
Theorem lock_follows_the_loop (pid pid' : nat) (o : os)
    (loads loads' : list (option config))
    (env env' : nat → nat → nat → world) :
  can_open o default_lock_file_path = true →
  lock_holder o = None →
  let o' := fst (fst (main U get_text pid o loads env)) in
  (None ∈ loads ∨ run_raises U get_text (loop_jobs loads env 0) initial = true
   →
   lock_holder o' = None ∧
   snd (fst (main U get_text pid' o' loads' env'))
   = fst (main_loop U get_text loads' env' 0 initial)) ∧
  (Forall is_Some loads →
   run_raises U get_text (loop_jobs loads env 0) initial = false →
   lock_holder o' = Some pid ∧
   main U get_text pid' o' loads' env' = (o', Exit 1, [])).
Proof.
  intros Hc Ho. cbv zeta. rewrite (main_free U get_text pid o) by done.
  cbv zeta.
  pose proof (main_loop_result U get_text loads env 0 initial) as Hr.
  destruct (main_loop U get_text loads env 0 initial) as [r tr].
  cbn [fst] in Hr. subst r. split.
  - intros Hin.
    assert ((if run_raises U get_text (loop_jobs loads env 0) initial
             then Raise
             else if bool_decide (Forall is_Some loads)
                  then Return
                         (fst (run U get_text (loop_jobs loads env 0)
                                 initial))
                  else Raise) = Raise) as ->.
    { destruct Hin as [Hin| ->]; [|done].
      destruct (run_raises _ _ _ _); [done|].
      rewrite bool_decide_eq_false_2; [done|].
      intros Hall. rewrite Forall_forall in Hall.
      by destruct (Hall None Hin). }
    cbn [fst].
    pose proof (lock_released pid o Ho) as Hrel. split; [done|].
    apply (main_free_result U get_text pid'); [|done].
    unfold flock_un. cbn [locks]. rewrite lookup_insert_eq.
    by rewrite decide_True.
  - intros Hall ->. rewrite bool_decide_eq_true_2 by done. cbn [fst].
    assert (lock_holder
              {| can_open := can_open o;
                 locks := <[default_lock_file_path := pid]> (locks o) |}
            = Some pid) as Hh
      by (unfold lock_holder; cbn [locks]; apply lookup_insert_eq).
    split; [done|]. apply main_held; [done|]. by rewrite Hh.
Qed.



(** X25.  A target whose check fails is passed over: the run of the visits
    around it ends in the same tables and makes the same calls of the chat
    API as the run without it. *)
Theorem skipped_target_is_passed_over (js1 : list job) (j : job)
    (js2 : list job) (st : state) :
  quantity_of U get_text j = None →
  fst (run U get_text (js1 ++ j :: js2) st)
  = fst (run U get_text (js1 ++ js2) st) ∧
  notifier_calls (snd (run U get_text (js1 ++ j :: js2) st))
  = notifier_calls (snd (run U get_text (js1 ++ js2) st)).
Proof. apply run_skip. Qed.

End LoopMore.

(** X21.  [load_config] opens the file that [filename] names when
    [filename] is absolute, whatever the working directory; the default is
    absolute.  A relative [filename] is looked up in the working
    directory. *)
Theorem load_config_path (read_json : pystr → option config)
    (cwd filename : pystr) :
  (startswith (py "/") filename = true →
   load_config read_json cwd filename = read_json filename) ∧
  load_config read_json cwd default_filename = read_json default_filename ∧
  (startswith (py "/") filename = false → nonempty cwd = true →
   endswith (py "/") cwd = false →
   load_config read_json cwd filename
   = read_json (cwd ++ py "/" ++ filename)).
Proof.
  unfold load_config, path_join. split; [|split].
  - by intros ->.
  - reflexivity.
  - by intros -> -> ->.
Qed.

(** * The further properties on the configuration [settings] *)

Lemma visit_frame_witness :
  message_ids
    (fst (run_job basic_tables Some (checking (serving (py "缺货") (Sent 42)))
            initial))
  = message_ids initial.
Proof.
  apply (proj2 (proj2 (visit_frame basic_tables Some
                         (checking (serving (py "缺货") (Sent 42)))
                         initial))).
  intros (q & Hq & Hgt & _). vm_compute in Hq. injection Hq as <-.
  discriminate.
Defined.

Lemma status_reflects_quantity_witness :
  previous_status
    (fst (run_job basic_tables Some
            (checking (serving (py "5 in stock") (Sent 41))) initial))
    (name shop) (url vps) = gt0 (QInt 5).
Proof.
  apply (status_reflects_quantity basic_tables Some
           (checking (serving (py "5 in stock") (Sent 41))) initial (QInt 5)).
  - vm_compute. reflexivity.
  - vm_compute. reflexivity.
Defined.

Lemma in_stock_has_entry_witness :
  is_Some
    (message_ids
       (fst (run basic_tables Some
               [checking (serving (py "5 in stock") SendRaised)] initial))
     !! url vps).
Proof.
  apply (in_stock_has_entry basic_tables Some
           [checking (serving (py "5 in stock") SendRaised)] (name shop)).
  vm_compute. reflexivity.
Defined.

Lemma entries_are_kept_witness :
  is_Some
    (message_ids
       (fst (run basic_tables Some
               [checking (serving (py "缺货") (Sent 42))]
               (fst (run basic_tables Some
                       [checking (serving (py "5 in stock") (Sent 41))]
                       initial))))
     !! url vps).
Proof.
  apply (entries_are_kept basic_tables Some).
  exists (Some 41). vm_compute. reflexivity.
Defined.

Lemma shared_url_edits_latest_witness :
  notifier_calls
    (snd (run_job basic_tables Some
            (checking (serving (py "缺货") (Sent 42)))
            (fst (run_job basic_tables Some
                    {| j_config := settings; j_merchant := reseller;
                       j_stock := vps;
                       j_world := serving (py "3 in stock") (Sent 77) |}
                    (fst (run_job basic_tables Some
                            (checking (serving (py "5 in stock") (Sent 41)))
                            initial))))))
  = [EditMessageText (py "@restock") 77 (message_for (QInt 0))].
Proof.
  apply (shared_url_edits_latest basic_tables Some _
           {| j_config := settings; j_merchant := reseller; j_stock := vps;
              j_world := serving (py "3 in stock") (Sent 77) |}
           (checking (serving (py "缺货") (Sent 42)))
           (QInt 3) (QInt 0)).
  - reflexivity.
  - vm_compute. reflexivity.
  - vm_compute. reflexivity.
  - vm_compute. reflexivity.
  - reflexivity.
  - vm_compute. reflexivity.
  - discriminate.
  - vm_compute. reflexivity.
  - reflexivity.
  - vm_compute. reflexivity.
  - reflexivity.
  - reflexivity.
Defined.

Lemma main_loop_stops_at_failed_load_witness :
  main_loop basic_tables Some ([Some settings] ++ None :: [Some settings])
    (λ _ _ _, unreachable) 0 initial
  = (Raise,
     snd (main_loop basic_tables Some [Some settings] (λ _ _ _, unreachable)
            0 initial)).
Proof.
  apply (main_loop_stops_at_failed_load basic_tables Some [Some settings]
           [Some settings] (λ _ _ _, unreachable) 0 initial).
  constructor; [by exists settings|constructor].
Defined.

Lemma lock_follows_the_loop_witness :
  lock_holder
    (fst (fst (main basic_tables Some 1 free_os [None]
                 (λ _ _ _, unreachable)))) = None ∧
  snd (fst (main basic_tables Some 2
              (fst (fst (main basic_tables Some 1 free_os
                           [None] (λ _ _ _, unreachable))))
              [Some settings] (λ _ _ _, unreachable)))
  = fst (main_loop basic_tables Some [Some settings] (λ _ _ _, unreachable)
           0 initial).
Proof.
  apply (proj1 (lock_follows_the_loop basic_tables Some 1 2
                  free_os [None] [Some settings]
                  (λ _ _ _, unreachable) (λ _ _ _, unreachable)
                  eq_refl eq_refl)).
  left. apply list_elem_of_here.
Defined.

Lemma repeated_quantity_is_silent_witness :
  notifier_calls
    (snd (run_job basic_tables Some
            (checking (serving (py "12 in stock") (Sent 42)))
            (fst (run_job basic_tables Some
                    (checking (serving (py "12 in stock") (Sent 41)))
                    initial)))) = [].
Proof.
  apply (repeated_quantity_is_silent basic_tables Some initial
           (checking (serving (py "12 in stock") (Sent 41)))
           (checking (serving (py "12 in stock") (Sent 42))));
    reflexivity.
Defined.

Lemma load_config_path_witness :
  load_config (λ _, Some settings) (py "/home/user") default_filename
  = Some settings ∧
  load_config (λ _, Some settings) (py "/home/user") (py "config.json")
  = Some settings.
Proof.
  split.
  - apply (proj1 (load_config_path (λ _, Some settings) (py "/home/user")
                    default_filename)).
    reflexivity.
  - apply (proj2 (proj2 (load_config_path (λ _, Some settings)
                           (py "/home/user") (py "config.json"))));
      reflexivity.
Defined.


Lemma skipped_target_is_passed_over_witness :
  notifier_calls
    (snd (run basic_tables Some
            ([checking (serving (py "5 in stock") (Sent 41))]
             ++ checking unreachable
                :: [checking (serving (py "缺货") (Sent 42))])
            initial))
  = notifier_calls
      (snd (run basic_tables Some
              ([checking (serving (py "5 in stock") (Sent 41))]
               ++ [checking (serving (py "缺货") (Sent 42))])
              initial)).
Proof.
  apply (skipped_target_is_passed_over basic_tables Some
           [checking (serving (py "5 in stock") (Sent 41))]
           (checking unreachable)
           [checking (serving (py "缺货") (Sent 42))] initial).
  vm_compute. reflexivity.
Defined.
